(** * Ring exchange of a model between distributed processes (agn.py)

    A shallow embedding of [scripts/data-parallelism/agn.py] and the
    properties of its ring protocol: neighbour computation, the master and
    worker loops, the role dispatch in [main], the validation of the
    command line and [set_parameterization].

    Conventions of the embedding.
    - Python integers are [Z]; [%] is Python's floored remainder, which
      raises [ZeroDivisionError] on a zero divisor.
    - The settings dictionary is a [gmap string pyval], threaded explicitly
      through the functions that mutate it.
    - Code that calls into [torch.distributed] or prints runs in the monad
      [Py]: a log of the calls made so far and either an exception or a
      value. The log is that of a run in which every external call returns
      (no transport failure, no blocked peer).
    - Tensors are identified by name and shape; their contents are not
      modelled, except in [set_parameterization], which is parametric in the
      tensors and in the [copy_] of torch. *)

From Stdlib Require Import Ascii String.
From stdpp Require Import base tactics option list list_numbers gmap strings pretty.

Local Open Scope string_scope.
Local Open Scope Z_scope.
Local Open Scope list_scope.

(** ** Python values and exceptions *)

(** The values a settings entry holds in this program: [None], booleans,
    integers and strings. *)
Inductive pyval :=
| PNone
| PBool (b : bool)
| PInt (z : Z)
| PStr (s : string).

Inductive exn :=
| KeyError (key : string)
| TypeError
| ValueError
| IndexError
| ZeroDivisionError
| RuntimeError.

(** A Python expression: an exception or a value. *)
Definition result (A : Type) : Type := exn + A.

#[global] Instance result_ret : MRet result := λ A a, inr a.
#[global] Instance result_bind : MBind result := λ A B f r,
  match r with
  | inl e => inl e
  | inr a => f a
  end.

(** [bool] is a subclass of [int]: [True] and [False] count as 1 and 0. *)
Definition int_operand (v : pyval) : result Z :=
  match v with
  | PInt z => inr z
  | PBool b => inr (Z.b2z b)
  | PNone | PStr _ => inl TypeError
  end.

(** An operand of [+] whose other operand is a string. *)
Definition str_operand (v : pyval) : result string :=
  match v with
  | PStr s => inr s
  | _ => inl TypeError
  end.

(** [a % b] on integers. *)
Definition py_mod (a b : Z) : result Z :=
  if decide (b = 0) then inl ZeroDivisionError else inr (a `mod` b).

(** [str(v)] *)
Definition py_str (v : pyval) : string :=
  match v with
  | PNone => "None"
  | PBool true => "True"
  | PBool false => "False"
  | PInt z => pretty z
  | PStr s => s
  end.

(** Truth value of [v] in a condition. *)
Definition py_truth (v : pyval) : bool :=
  match v with
  | PNone => false
  | PBool b => b
  | PInt z => bool_decide (z ≠ 0)
  | PStr s => bool_decide (s ≠ "")
  end.

(** [range(start, stop)] *)
Definition py_range (start stop : Z) : list Z := seqZ start (stop - start).

(** The builtin [int] applied to a string is the interpreter's, not the
    repository's: the development is parametric in it. [None] stands for
    the [ValueError] of a string that is no integer literal. *)
Class Builtins := { int_of_str : string → option Z }.

(** [int(v)] *)
Definition py_int `{Builtins} (v : pyval) : result Z :=
  match v with
  | PNone => inl TypeError
  | PBool b => inr (Z.b2z b)
  | PInt z => inr z
  | PStr s => from_option inr (inl ValueError) (int_of_str s)
  end.

(** ** The settings dictionary *)

Abbreviation dict := (gmap string pyval).

(** [settings[key]] *)
Definition getitem (settings : dict) (key : string) : result pyval :=
  from_option inr (inl (KeyError key)) (settings !! key).

(** ** The model and the calls it makes on the network *)

Record Linear := { in_features : Z; out_features : Z }.

Record Model := { fc_1 : Linear; fc_2 : Linear; fc_3 : Linear }.

Definition Model_init (num_features num_hidden : Z) : Model :=
  {| fc_1 := {| in_features := num_features; out_features := num_hidden |};
     fc_2 := {| in_features := num_hidden; out_features := num_hidden |};
     fc_3 := {| in_features := num_hidden; out_features := 1 |} |}.

(** A parameter tensor of the model. *)
Record parameter := { name : string; shape : list Z }.

Definition Linear_parameters (prefix : string) (l : Linear) : list parameter :=
  [ {| name := prefix +:+ ".weight"; shape := [out_features l; in_features l] |};
    {| name := prefix +:+ ".bias"; shape := [out_features l] |} ].

(** [list(model.parameters())]: weight and bias of each layer, in the order
    the layers are registered. *)
Definition parameters (model : Model) : list parameter :=
  Linear_parameters "fc_1" (fc_1 model) ++
  Linear_parameters "fc_2" (fc_2 model) ++
  Linear_parameters "fc_3" (fc_3 model).

Definition build_model (settings : dict) : Model :=
  let num_features := 10000 in
  let num_hidden := 10000 in
  let model := Model_init num_features num_hidden in
  model.

(** A call of [dist.send(p.data, dst)] or [dist.recv(p.data, src)]. *)
Inductive dist_call :=
| dist_send (p : parameter) (dst : Z)
| dist_recv (p : parameter) (src : Z).

(** What [main] and the two loops do, call by call. A call of [send_model]
    or [receive_model] is logged with the [dist] calls it made. *)
Inductive op :=
| InitProcessGroup (init_method : string) (rank world_size : pyval) (backend : pyval)
| SendModel (destination : Z) (wire : list dist_call)
| ReceiveModel (source : Z) (wire : list dist_call)
| PrintCall (text : string).

(** ** The monad of the effectful code *)

Definition Py (A : Type) : Type := list op * result A.

#[global] Instance Py_ret : MRet Py := λ A a, ([], inr a).
#[global] Instance Py_bind : MBind Py := λ A B f m,
  match m with
  | (log, inl e) => (log, inl e)
  | (log, inr a) => let '(log', r) := f a in (log ++ log', r)
  end.

Definition emit (o : op) : Py unit := ([o], inr ()).

(** A pure expression inside effectful code. *)
Definition eval {A} (r : result A) : Py A := ([], r).

(** [for x in xs: body] *)
Fixpoint for_ {A} (xs : list A) (body : A → Py unit) : Py unit :=
  match xs with
  | [] => mret ()
  | x :: xs' => body x ;; for_ xs' body
  end.

Definition log_of {A} (m : Py A) : list op := m.1.

(** ** Ring neighbours *)

(** [(rank + 1) % world_size] *)
Definition next_rank (rank world_size : pyval) : result Z :=
  r ← int_operand rank; w ← int_operand world_size; py_mod (r + 1) w.

(** [(rank - 1) % world_size] *)
Definition previous_rank (rank world_size : pyval) : result Z :=
  r ← int_operand rank; w ← int_operand world_size; py_mod (r - 1) w.

(** ** Sending and receiving the model *)

Definition send_parameters (parameters : list parameter) (destination : Z) : list dist_call :=
  (λ p, dist_send p destination) <$> parameters.

Definition send_model (model : Model) (destination : Z) : Py unit :=
  let parameters := parameters model in
  emit (SendModel destination (send_parameters parameters destination)).

Definition receive_parameters (parameters : list parameter) (source : Z) : list dist_call :=
  (λ p, dist_recv p source) <$> parameters.

Definition receive_model (model : Model) (source : Z) : Py unit :=
  let parameters := parameters model in
  emit (ReceiveModel source (receive_parameters parameters source)).

(** ** The two loops *)

Definition optimize_master (settings : dict) : Py unit :=
  rank ← eval (getitem settings "rank");
  world_size ← eval (getitem settings "world_size");
  num_iterations ← eval (getitem settings "num_iterations");
  let model := build_model settings in
  next_rank ← eval (next_rank rank world_size);
  previous_rank ← eval (previous_rank rank world_size);
  send_model model next_rank;;
  stop ← eval (n ← int_operand num_iterations; mret (n - 1));
  for_ (py_range 0 stop) (λ i,
    receive_model model previous_rank;;
    send_model model next_rank);;
  receive_model model previous_rank.

Definition optimize (settings : dict) : Py unit :=
  rank ← eval (getitem settings "rank");
  world_size ← eval (getitem settings "world_size");
  num_iterations ← eval (getitem settings "num_iterations");
  let model := build_model settings in
  next_rank ← eval (next_rank rank world_size);
  previous_rank ← eval (previous_rank rank world_size);
  stop ← eval (int_operand num_iterations);
  for_ (py_range 0 stop) (λ i,
    receive_model model previous_rank;;
    send_model model next_rank).

(** ** The command line *)

(** [l.index(x)]: the position of the first occurrence of [x]; [None] stands
    for the [ValueError] of an absent element. *)
Fixpoint index (x : string) (l : list string) : option nat :=
  match l with
  | [] => None
  | y :: l' => if decide (y = x) then Some 0%nat else S <$> index x l'
  end.

(** [argv] is [sys.argv]. The outer match is the test [key in sys.argv], the
    inner one the test [sys.argv.index(key) + 1 < len(sys.argv)] together
    with the read of [sys.argv[sys.argv.index(key) + 1]]. *)
Definition store_argument_key (argv : list string) (settings : dict)
    (key store_in : string) (default : pyval) : dict :=
  match index key argv with
  | Some i =>
      match argv !! (i + 1)%nat with
      | Some value => <[store_in := PStr value]> settings
      | None => <[store_in := default]> settings
      end
  | None => <[store_in := default]> settings
  end.

(** [type] ranges over the two values that [parse_arguments] passes, ['int']
    and ['string']. The source has a third branch, for ['float'], that no
    call selects; Python floats are outside the values of this development,
    so that branch has no counterpart here. *)
Inductive argtype := type_int | type_string.

(** Returns the settings after the conversion and the flag [valid]. Any
    exception of the conversion is caught and leaves the entry as it was. *)
Definition validate_argument_key `{Builtins} (settings : dict) (key : string)
    (type : argtype) : dict * bool :=
  let valid := false in
  match settings !! key with
  | Some v =>
      match type with
      | type_int =>
          match py_int v with
          | inr n => (<[key := PInt n]> settings, true)
          | inl _ => (settings, valid)
          end
      | type_string => (settings, true)
      end
  | None => (settings, valid)
  end.

Definition parse_arguments `{Builtins} (argv : list string) : dict :=
  let settings : dict := ∅ in
  let valid := true in
  let settings := store_argument_key argv settings "--rank" "rank" PNone in
  let settings := store_argument_key argv settings "--world-size" "world_size" PNone in
  let settings := store_argument_key argv settings "--annouce-port" "announce_port" (PInt 5001) in
  let settings := store_argument_key argv settings "--communication-frequency" "communication_frequency" (PInt 15) in
  let settings := store_argument_key argv settings "--backend" "backend" (PStr "tcp") in
  let settings := store_argument_key argv settings "--master" "master" (PStr "127.0.0.1") in
  let settings := store_argument_key argv settings "--master-port" "master_port" (PInt 5000) in
  let settings := store_argument_key argv settings "--iterations" "num_iterations" (PInt 1000) in
  let '(settings, v) := validate_argument_key settings "rank" type_int in
  let valid := valid && v in
  let '(settings, v) := validate_argument_key settings "world_size" type_int in
  let valid := valid && v in
  let '(settings, v) := validate_argument_key settings "announce_port" type_int in
  let valid := valid && v in
  let '(settings, v) := validate_argument_key settings "communication_frequency" type_int in
  let valid := valid && v in
  let '(settings, v) := validate_argument_key settings "backend" type_string in
  let valid := valid && v in
  let '(settings, v) := validate_argument_key settings "master" type_string in
  let valid := valid && v in
  let '(settings, v) := validate_argument_key settings "master_port" type_int in
  let valid := valid && v in
  let '(settings, v) := validate_argument_key settings "num_iterations" type_int in
  let valid := valid && v in
  <["valid" := PBool valid]> settings.

(** ** Usage message *)

Definition ESC : string := String (ascii_of_nat 27) "".
Definition NL : string := String (ascii_of_nat 10) "".

Definition bold (s : string) : string := ESC +:+ "[1m" +:+ s +:+ ESC +:+ "[0m".

Definition options : string :=
  String.concat NL
    [ bold "Accumulated Gradient Normalization";
      "";
      bold "Required Arguments:";
      "    --rank [int] Rank-identifier of the local optimization process.";
      "    --world-size [int] Total number of workers involved in the optimization process.";
      "";
      bold "Optional Arguments:";
      "    --backend [string] PyTorch Distributed backend ('tcp', 'mpi', or 'gloo'). Default 'tcp'.";
      "    --annouce-port [int] Port responsible for handling broadcast requests. Default 5001.";
      "    --communication-frequency [int] Number of local iterations before announcing ready state. Default 15 Hz.";
      "    --master-port [int] Port on which the master orchestrator will run. Default 5000.";
      "    --master [string] IP address of the master process. Default '127.0.0.1'.";
      "    --iterations [int] Number of local mini-batches that have to be evaluated. Default 1000.";
      "" ].

Definition usage : Py unit := emit (PrintCall options).

(** ** Entry point *)

(** [rank == 0] *)
Definition is_master (rank : pyval) : bool :=
  match rank with
  | PInt z => bool_decide (z = 0)
  | PBool b => negb b
  | PNone | PStr _ => false
  end.

Definition init_process_group (init_method : string) (rank world_size backend : pyval) : Py unit :=
  emit (InitProcessGroup init_method rank world_size backend).

Definition main `{Builtins} (argv : list string) : Py unit :=
  let settings := parse_arguments argv in
  valid ← eval (getitem settings "valid");
  if py_truth valid then
    distributed_backend ← eval (getitem settings "backend");
    master_orchestrator ← eval (getitem settings "master");
    master_orchestrator_port ← eval (getitem settings "master_port");
    rank ← eval (getitem settings "rank");
    world_size ← eval (getitem settings "world_size");
    method ← eval (b ← str_operand distributed_backend;
                   m ← str_operand master_orchestrator;
                   mret (b +:+ "://" +:+ m +:+ ":" +:+ py_str master_orchestrator_port));
    init_process_group method rank world_size distributed_backend;;
    if is_master rank then
      optimize_master settings
    else
      optimize settings
  else
    usage.

(** ** Overwriting the tensors of a model *)

(** [xs[i]]: a negative index counts from the end. *)
Definition list_getitem {A} (xs : list A) (i : Z) : result A :=
  let j := if decide (i < 0) then i + Z.of_nat (length xs) else i in
  if decide (j < 0) then inl IndexError
  else from_option inr (inl IndexError) (xs !! Z.to_nat j).

(** The tensors are torch's, not the repository's: the development is
    parametric in the contents of a tensor and in [copy_]. [copy_ self src]
    is the contents of [self] after [self.copy_(src, async=True)] ([async] is
    an ordinary keyword argument in the Python of the script's date); [None]
    stands for the [RuntimeError] that torch raises when [src] cannot be
    broadcast to the shape of [self]. *)
Class Torch := { tensor : Type; copy_ : tensor → tensor → option tensor }.

Section set_parameterization.
Context `{Torch}.

(** The loop [for p in model.parameters()]: [visited] holds the contents of
    the parameters already visited, [todo] those of the parameters still to
    visit, [i] is the index. The result is the contents of all the
    parameters and the index when the loop ends, by exhaustion or by an
    exception of [parameters[i]] or of [copy_]. The list is taken by value:
    only [parameters[0]] is ever read, and if it is a parameter of the model
    it is only copied onto itself. *)
Fixpoint set_parameterization_loop (parameters : list tensor) (i : Z)
    (visited todo : list tensor) : list tensor * Z * result unit :=
  match todo with
  | [] => (visited, i, inr ())
  | p :: todo' =>
      match list_getitem parameters i with
      | inl e => (visited ++ todo, i, inl e)
      | inr t =>
          match copy_ p t with
          | None => (visited ++ todo, i, inl RuntimeError)
          | Some p' => set_parameterization_loop parameters (i + i) (visited ++ [p']) todo'
          end
      end
  end.

(** A model is the list of the contents of its parameters. *)
Definition set_parameterization (model : list tensor) (parameters : list tensor)
    : list tensor * result unit :=
  let i := 0 in
  let '(data, _, r) := set_parameterization_loop parameters i [] model in
  (data, r).
End set_parameterization.

(** ** An interpreter for the examples *)

Definition is_space (c : ascii) : bool :=
  bool_decide (c ∈ [" "; ascii_of_nat 9; ascii_of_nat 10; ascii_of_nat 11;
                    ascii_of_nat 12; ascii_of_nat 13]%char).

Fixpoint lstrip (s : string) : string :=
  match s with
  | String c s' => if is_space c then lstrip s' else s
  | EmptyString => s
  end.

Definition strip (s : string) : string :=
  String.rev (lstrip (String.rev (lstrip s))).

Definition digit_value (c : ascii) : option Z :=
  let n := Z.of_nat (nat_of_ascii c) in
  if decide (48 ≤ n ≤ 57) then Some (n - 48) else None.

Fixpoint digits_value (acc : Z) (s : string) : option Z :=
  match s with
  | EmptyString => Some acc
  | String c s' => d ← digit_value c; digits_value (10 * acc + d) s'
  end.

Definition unsigned_decimal (s : string) : option Z :=
  match s with
  | EmptyString => None
  | _ => digits_value 0 s
  end.

(** [int(s)] on ASCII text: blanks around an optional sign and at least one
    decimal digit, without digit separators. *)
Definition decimal_int (s : string) : option Z :=
  match strip s with
  | String "+" d => unsigned_decimal d
  | String "-" d => Z.opp <$> unsigned_decimal d
  | d => unsigned_decimal d
  end.

#[global] Instance decimal_builtins : Builtins := {| int_of_str := decimal_int |}.

(** ** Vocabulary of the statements *)

(** The log entry of [send_model(model, destination)]. *)
Definition sent (model : Model) (destination : Z) : op :=
  SendModel destination (send_parameters (parameters model) destination).

(** The log entry of [receive_model(model, source)]. *)
Definition received (model : Model) (source : Z) : op :=
  ReceiveModel source (receive_parameters (parameters model) source).

(** [k] repetitions of a receive from [previous] followed by a send to [next]. *)
Definition cycles (k : nat) (model : Model) (previous next : Z) : list op :=
  mjoin (replicate k [received model previous; sent model next]).

Definition is_send (o : op) : bool :=
  match o with SendModel _ _ => true | _ => false end.

Definition is_receive (o : op) : bool :=
  match o with ReceiveModel _ _ => true | _ => false end.

Definition is_network (o : op) : bool :=
  match o with PrintCall _ => false | _ => true end.

Definition sends (log : list op) : nat := length (filter is_send log).
Definition receives (log : list op) : nat := length (filter is_receive log).

(** [next] applied [k] times from [rank]. *)
Fixpoint iterate_next (world_size : Z) (k : nat) (rank : Z) : result Z :=
  match k with
  | O => inr rank
  | S k' => r ← next_rank (PInt rank) (PInt world_size); iterate_next world_size k' r
  end.

(** The neighbours as the specification writes them. *)
Definition spec_next (rank world_size : Z) : Z := (rank + 1) `mod` world_size.
Definition spec_previous (rank world_size : Z) : Z := (rank - 1 + world_size) `mod` world_size.

(** The value [store_argument_key] stores for [key]: the argument after the
    first occurrence of [key] if there is one, [default] otherwise. *)
Definition argument (argv : list string) (key : string) (default : pyval) : pyval :=
  match index key argv with
  | Some i => from_option PStr default (argv !! (i + 1)%nat)
  | None => default
  end.

(** An entry after [validate_argument_key] with type ['int']. *)
Definition converted `{Builtins} (v : pyval) : pyval :=
  match py_int v with
  | inr n => PInt n
  | inl _ => v
  end.

Definition convertible `{Builtins} (v : pyval) : bool :=
  match py_int v with
  | inr _ => true
  | inl _ => false
  end.

Ltac solve_lookup :=
  repeat (rewrite lookup_insert_ne by done);
  first [apply lookup_insert_eq | reflexivity].

(** The settings [parse_arguments] returns, entry by entry. *)
Definition parsed `{Builtins} (argv : list string) : dict :=
  let rank := argument argv "--rank" PNone in
  let world_size := argument argv "--world-size" PNone in
  let announce_port := argument argv "--annouce-port" (PInt 5001) in
  let communication_frequency := argument argv "--communication-frequency" (PInt 15) in
  let backend := argument argv "--backend" (PStr "tcp") in
  let master := argument argv "--master" (PStr "127.0.0.1") in
  let master_port := argument argv "--master-port" (PInt 5000) in
  let num_iterations := argument argv "--iterations" (PInt 1000) in
  <["valid" := PBool (true && convertible rank && convertible world_size
                        && convertible announce_port
                        && convertible communication_frequency
                        && true && true
                        && convertible master_port && convertible num_iterations)]>
  (<["num_iterations" := converted num_iterations]>
  (<["master_port" := converted master_port]>
  (<["communication_frequency" := converted communication_frequency]>
  (<["announce_port" := converted announce_port]>
  (<["world_size" := converted world_size]>
  (<["rank" := converted rank]>
  (<["num_iterations" := num_iterations]>
  (<["master_port" := master_port]>
  (<["master" := master]>
  (<["backend" := backend]>
  (<["communication_frequency" := communication_frequency]>
  (<["announce_port" := announce_port]>
  (<["world_size" := world_size]>
  (<["rank" := rank]> ∅)))))))))))))).

(** ** Inputs of the examples *)

Definition ring_settings (rank world_size num_iterations : Z) : dict :=
  <["rank" := PInt rank]>
    (<["world_size" := PInt world_size]>
       (<["num_iterations" := PInt num_iterations]> ∅)).

(** ** The options of the command line *)

(** The options [parse_arguments] reads: flag, key of the settings, default
    and type, in the order of the source. *)
Definition option_table : list (string * string * pyval * argtype) :=
  [ ("--rank", "rank", PNone, type_int);
    ("--world-size", "world_size", PNone, type_int);
    ("--annouce-port", "announce_port", PInt 5001, type_int);
    ("--communication-frequency", "communication_frequency", PInt 15, type_int);
    ("--backend", "backend", PStr "tcp", type_string);
    ("--master", "master", PStr "127.0.0.1", type_string);
    ("--master-port", "master_port", PInt 5000, type_int);
    ("--iterations", "num_iterations", PInt 1000, type_int) ].

(** The keys of the settings [parse_arguments] returns. *)
Definition settings_keys : gset string :=
  {[ "rank"; "world_size"; "announce_port"; "communication_frequency";
     "backend"; "master"; "master_port"; "num_iterations"; "valid" ]}.

(** An entry of the settings after its validation with type [type]. *)
Definition validated `{Builtins} (type : argtype) (v : pyval) : pyval :=
  match type with
  | type_int => converted v
  | type_string => v
  end.

(** ** More vocabulary *)

Definition is_init (o : op) : bool :=
  match o with InitProcessGroup _ _ _ _ => true | _ => false end.

(** A call of [send_model] or of [receive_model]. *)
Definition is_transfer (o : op) : bool := is_send o || is_receive o.

(** The log of the loop that [main] selects for [rank]. *)
Definition role_log (model : Model) (rank world_size num_iterations : Z) : list op :=
  let next := (rank + 1) `mod` world_size in
  let previous := (rank - 1) `mod` world_size in
  if decide (rank = 0)
  then sent model next :: cycles (Z.to_nat (num_iterations - 1)) model previous next
         ++ [received model previous]
  else cycles (Z.to_nat num_iterations) model previous next.

(** The [dist] calls of a logged call. *)
Definition wire_of (o : op) : list dist_call :=
  match o with
  | SendModel _ wire | ReceiveModel _ wire => wire
  | _ => []
  end.

Definition tensor_of (c : dist_call) : parameter :=
  match c with dist_send p _ | dist_recv p _ => p end.

Definition peer_of (c : dist_call) : Z :=
  match c with dist_send _ peer | dist_recv _ peer => peer end.

(** The rank a logged transfer talks to. *)
Definition peer (o : op) : option Z :=
  match o with
  | SendModel destination _ => Some destination
  | ReceiveModel source _ => Some source
  | _ => None
  end.

Definition same_direction (o : op) (c : dist_call) : bool :=
  match o, c with
  | SendModel _ _, dist_send _ _ => true
  | ReceiveModel _ _, dist_recv _ _ => true
  | _, _ => false
  end.

Definition count_ops (f : op → bool) (log : list op) : nat := length (filter f log).

(** Calls of [send_model] to [rank], calls of [receive_model] from [rank]. *)
Definition sends_to (rank : Z) (log : list op) : nat :=
  count_ops (λ o, is_send o && bool_decide (peer o = Some rank)) log.

Definition receives_from (rank : Z) (log : list op) : nat :=
  count_ops (λ o, is_receive o && bool_decide (peer o = Some rank)) log.

(** What [main] runs after the initialisation in the process of rank [rank]
    of a ring of [world_size] processes. *)
Definition ring_process (world_size num_iterations rank : Z) : Py unit :=
  let settings := ring_settings rank world_size num_iterations in
  if is_master (PInt rank) then optimize_master settings else optimize settings.

(** All the [dist] calls of a log, in order. *)
Definition dist_calls (log : list op) : list dist_call := mjoin (wire_of <$> log).

Definition is_dist_send (c : dist_call) : bool :=
  match c with dist_send _ _ => true | dist_recv _ _ => false end.

Definition is_dist_recv (c : dist_call) : bool :=
  match c with dist_recv _ _ => true | dist_send _ _ => false end.

(** ** Tensors of the examples *)

(** A tensor as its shape and its entries by index. *)
Record ndarray := { dims : list Z; entry : list Z → Z }.

(** A tensor of shape [src] can be broadcast to the shape [self]: it has no
    more dimensions and, aligned from the last one, each of its dimensions is
    that of [self] or 1. *)
Definition expandable (src self : list Z) : bool :=
  bool_decide (length src ≤ length self)%nat &&
  forallb (λ '(s, d), bool_decide (s = d ∨ s = 1))
    (zip src (drop (length self - length src) self)).

(** The index of [src] that is read for the index [index] of [self]. *)
Definition source_index (src : list Z) (index : list Z) : list Z :=
  zip_with (λ s i, if decide (s = 1) then 0 else i) src
    (drop (length index - length src) index).

Definition ndarray_copy (self src : ndarray) : option ndarray :=
  if expandable (dims src) (dims self)
  then Some {| dims := dims self;
               entry := λ index, entry src (source_index (dims src) index) |}
  else None.

#[global] Instance ndarray_torch : Torch :=
  {| tensor := ndarray; copy_ := ndarray_copy |}.

(** A tensor of shape [shape] whose entries are all [v]. *)
Definition full (shape : list Z) (v : Z) : ndarray :=
  {| dims := shape; entry := λ _, v |}.

(** The contents of the parameters of the script's model, all entries [v]. *)
Definition script_model (v : Z) : list ndarray :=
  (λ p, full (shape p) v) <$> parameters (Model_init 10000 10000).

(** ** The loop its docstring describes *)

(** [set_parameterization] with the index advanced by one at each
    iteration, so that the parameters of the model receive the tensors of
    the list in order, as the docstring says ("Sets the tensors of the model
    to the specified set of parameters"). *)
Fixpoint documented_loop `{Torch} (parameters : list tensor) (i : Z)
    (visited todo : list tensor) : list tensor * Z * result unit :=
  match todo with
  | [] => (visited, i, inr ())
  | p :: todo' =>
      match list_getitem parameters i with
      | inl e => (visited ++ todo, i, inl e)
      | inr t =>
          match copy_ p t with
          | None => (visited ++ todo, i, inl RuntimeError)
          | Some p' => documented_loop parameters (i + 1) (visited ++ [p']) todo'
          end
      end
  end.

Definition set_parameterization_documented `{Torch} (model parameters : list tensor)
    : list tensor * result unit :=
  let '(data, _, r) := documented_loop parameters 0 [] model in
  (data, r).

(** [d'] is the contents of a parameter of contents [d] after [t] has been
    copied into it. *)
Definition overwritten_by `{Torch} (t d d' : tensor) : Prop := copy_ d t = Some d'.

(** * Properties *)

(** ** The monad *)

Lemma bind_inr {A B} (log : list op) (a : A) (f : A → Py B) :
  (log, inr a) ≫= f = (log ++ (f a).1, (f a).2).
Proof. unfold mbind, Py_bind. by destruct (f a). Qed.

Lemma bind_inl {A B} (log : list op) (e : exn) (f : A → Py B) :
  (log, inl e) ≫= f = (log, inl e).
Proof. done. Qed.

Lemma eval_bind {A B} (a : A) (f : A → Py B) : eval (inr a) ≫= f = f a.
Proof. unfold eval. rewrite bind_inr. by destruct (f a). Qed.

Lemma emit_bind {B} (o : op) (f : unit → Py B) :
  emit o ≫= f = (o :: (f ()).1, (f ()).2).
Proof. unfold emit. by rewrite bind_inr. Qed.

Lemma for_constant {A} (xs : list A) (body : A → Py unit) (log : list op) :
  (∀ x, body x = (log, inr ())) →
  for_ xs body = (mjoin (replicate (length xs) log), inr ()).
Proof.
  intros Hbody. induction xs as [|x xs IH]; [done|].
  simpl. by rewrite Hbody, bind_inr, IH.
Qed.

Lemma length_py_range (stop : Z) : length (py_range 0 stop) = Z.to_nat stop.
Proof. unfold py_range. rewrite length_seqZ. f_equal. lia. Qed.

(** ** The loops, run *)

Lemma neighbours_defined (r ws : Z) :
  ws ≠ 0 →
  next_rank (PInt r) (PInt ws) = inr ((r + 1) `mod` ws) ∧
  previous_rank (PInt r) (PInt ws) = inr ((r - 1) `mod` ws).
Proof.
  intros Hws. unfold next_rank, previous_rank, py_mod. simpl.
  by case_decide.
Qed.

Lemma cycle_body (model : Model) (previous next : Z) :
  (receive_model model previous;; send_model model next)
  = ([received model previous; sent model next], inr ()).
Proof. done. Qed.

Section loops.
Context (settings : dict) (r ws n : Z).
Hypothesis Hrank : settings !! "rank" = Some (PInt r).
Hypothesis Hworld : settings !! "world_size" = Some (PInt ws).
Hypothesis Hiter : settings !! "num_iterations" = Some (PInt n).
Hypothesis Hring : ws ≠ 0.

Let model := build_model settings.
Let next := (r + 1) `mod` ws.
Let previous := (r - 1) `mod` ws.

Lemma optimize_master_run :
  optimize_master settings
  = (sent model next :: cycles (Z.to_nat (n - 1)) model previous next
       ++ [received model previous], inr ()).
Proof.
  unfold optimize_master, getitem.
  rewrite Hrank, Hworld, Hiter. simpl from_option. rewrite !eval_bind.
  destruct (neighbours_defined r ws Hring) as [-> ->].
  rewrite !eval_bind. etrans; [apply emit_bind|].
  change (int_operand (PInt n) ≫= _) with (inr (n - 1) : result Z).
  rewrite eval_bind.
  rewrite (for_constant _ _ _ (λ _, cycle_body _ _ _)), bind_inr.
  by rewrite length_py_range.
Qed.

Lemma optimize_run :
  optimize settings = (cycles (Z.to_nat n) model previous next, inr ()).
Proof.
  unfold optimize, getitem.
  rewrite Hrank, Hworld, Hiter. simpl from_option. rewrite !eval_bind.
  destruct (neighbours_defined r ws Hring) as [-> ->].
  rewrite !eval_bind. simpl int_operand. rewrite eval_bind.
  rewrite (for_constant _ _ _ (λ _, cycle_body _ _ _)).
  by rewrite length_py_range.
Qed.
End loops.

(** ** Counting the calls of a log *)

Lemma sends_app (l1 l2 : list op) : sends (l1 ++ l2) = (sends l1 + sends l2)%nat.
Proof. unfold sends. by rewrite filter_app, length_app. Qed.

Lemma receives_app (l1 l2 : list op) :
  receives (l1 ++ l2) = (receives l1 + receives l2)%nat.
Proof. unfold receives. by rewrite filter_app, length_app. Qed.

Lemma cycles_S (k : nat) (model : Model) (previous next : Z) :
  cycles (S k) model previous next
  = received model previous :: sent model next :: cycles k model previous next.
Proof. done. Qed.

Lemma sends_cycles (k : nat) (model : Model) (previous next : Z) :
  sends (cycles k model previous next) = k.
Proof.
  induction k as [|k IH]; [done|].
  rewrite cycles_S. unfold sends in *. rewrite filter_cons_False, filter_cons_True by (simpl; auto).
  simpl. by rewrite IH.
Qed.

Lemma receives_cycles (k : nat) (model : Model) (previous next : Z) :
  receives (cycles k model previous next) = k.
Proof.
  induction k as [|k IH]; [done|].
  rewrite cycles_S. unfold receives in *.
  rewrite filter_cons_True, filter_cons_False by (simpl; auto).
  simpl. by rewrite IH.
Qed.

Lemma cycles_snoc (k : nat) (model : Model) (previous next : Z) :
  cycles (S k) model previous next
  = cycles k model previous next ++ [received model previous; sent model next].
Proof.
  induction k as [|k IH]; [done|].
  rewrite (cycles_S (S k)). rewrite IH at 1. by rewrite (cycles_S k).
Qed.

Lemma calls_of_master_log (k : nat) (model : Model) (previous next : Z) :
  let log := sent model next :: cycles k model previous next
               ++ [received model previous] in
  sends log = S k ∧ receives log = S k.
Proof.
  intros log. subst log.
  change (sent model next :: ?l) with ([sent model next] ++ l).
  rewrite !sends_app, !receives_app, sends_cycles, receives_cycles.
  change (sends [sent model next]) with 1%nat.
  change (sends [received model previous]) with 0%nat.
  change (receives [sent model next]) with 0%nat.
  change (receives [received model previous]) with 1%nat.
  lia.
Qed.

(** ** The master loop *)



(** ** The worker loop *)



(** The scenario of three processes and two iterations, rank by rank. *)
Example scenario_rank_0 :
  optimize_master (ring_settings 0 3 2)
  = ([sent (Model_init 10000 10000) 1; received (Model_init 10000 10000) 2;
      sent (Model_init 10000 10000) 1; received (Model_init 10000 10000) 2], inr ()).
Proof. vm_compute. reflexivity. Qed.

Example scenario_rank_1 :
  optimize (ring_settings 1 3 2)
  = ([received (Model_init 10000 10000) 0; sent (Model_init 10000 10000) 2;
      received (Model_init 10000 10000) 0; sent (Model_init 10000 10000) 2], inr ()).
Proof. vm_compute. reflexivity. Qed.

Example scenario_rank_2 :
  optimize (ring_settings 2 3 2)
  = ([received (Model_init 10000 10000) 1; sent (Model_init 10000 10000) 0;
      received (Model_init 10000 10000) 1; sent (Model_init 10000 10000) 0], inr ()).
Proof. vm_compute. reflexivity. Qed.

(** ** Calls per process *)

(** C1. With [num_iterations = N >= 1] each of the two loops returns after
    exactly [N] calls of [send_model] and exactly [N] calls of
    [receive_model]. *)
Theorem lap_count (settings : dict) (r ws n : Z) :
  settings !! "rank" = Some (PInt r) →
  settings !! "world_size" = Some (PInt ws) →
  settings !! "num_iterations" = Some (PInt n) →
  ws ≠ 0 →
  1 ≤ n →
  ((optimize_master settings).2 = inr () ∧
   Z.of_nat (sends (log_of (optimize_master settings))) = n ∧
   Z.of_nat (receives (log_of (optimize_master settings))) = n) ∧
  ((optimize settings).2 = inr () ∧
   Z.of_nat (sends (log_of (optimize settings))) = n ∧
   Z.of_nat (receives (log_of (optimize settings))) = n).
Proof.
  intros Hrank Hworld Hiter Hring Hn.
  rewrite (optimize_master_run settings r ws n), (optimize_run settings r ws n) by done.
  unfold log_of. cbn [fst snd].
  destruct (calls_of_master_log (Z.to_nat (n - 1)) (build_model settings)
              ((r - 1) `mod` ws) ((r + 1) `mod` ws)) as [-> ->].
  rewrite sends_cycles, receives_cycles. repeat split; lia.
Qed.

Lemma lap_count_witness :
  ((optimize_master (ring_settings 0 3 2)).2 = inr () ∧
   Z.of_nat (sends (log_of (optimize_master (ring_settings 0 3 2)))) = 2 ∧
   Z.of_nat (receives (log_of (optimize_master (ring_settings 0 3 2)))) = 2) ∧
  ((optimize (ring_settings 0 3 2)).2 = inr () ∧
   Z.of_nat (sends (log_of (optimize (ring_settings 0 3 2)))) = 2 ∧
   Z.of_nat (receives (log_of (optimize (ring_settings 0 3 2)))) = 2).
Proof.
  apply (lap_count (ring_settings 0 3 2) 0 3 2);
    [reflexivity | reflexivity | reflexivity | lia | lia].
Defined.

(** ** First and last call *)

(** C5. With [num_iterations >= 1] the first call of the master loop is a
    send and its last call a receive; the first call of the worker loop is a
    receive and its last call a send. *)
Theorem first_and_last_call (settings : dict) (r ws n : Z) :
  settings !! "rank" = Some (PInt r) →
  settings !! "world_size" = Some (PInt ws) →
  settings !! "num_iterations" = Some (PInt n) →
  ws ≠ 0 →
  1 ≤ n →
  ∃ next previous : Z,
    next_rank (PInt r) (PInt ws) = inr next ∧
    previous_rank (PInt r) (PInt ws) = inr previous ∧
    head (log_of (optimize_master settings)) = Some (sent (build_model settings) next) ∧
    last (log_of (optimize_master settings)) = Some (received (build_model settings) previous) ∧
    head (log_of (optimize settings)) = Some (received (build_model settings) previous) ∧
    last (log_of (optimize settings)) = Some (sent (build_model settings) next).
Proof.
  intros Hrank Hworld Hiter Hring Hn.
  destruct (neighbours_defined r ws Hring) as [Hnext Hprevious].
  eexists _, _. split; [exact Hnext|]. split; [exact Hprevious|].
  rewrite (optimize_master_run settings r ws n), (optimize_run settings r ws n) by done.
  unfold log_of. cbn [fst].
  destruct (Z.to_nat n) as [|k] eqn:Hk; [lia|].
  split; [done|]. split.
  - rewrite app_comm_cons. apply last_snoc.
  - split; [done|]. rewrite cycles_snoc. by rewrite last_app_cons.
Qed.

Lemma first_and_last_call_witness :
  ∃ next previous : Z,
    next_rank (PInt 0) (PInt 3) = inr next ∧
    previous_rank (PInt 0) (PInt 3) = inr previous ∧
    head (log_of (optimize_master (ring_settings 0 3 2)))
    = Some (sent (build_model (ring_settings 0 3 2)) next) ∧
    last (log_of (optimize_master (ring_settings 0 3 2)))
    = Some (received (build_model (ring_settings 0 3 2)) previous) ∧
    head (log_of (optimize (ring_settings 0 3 2)))
    = Some (received (build_model (ring_settings 0 3 2)) previous) ∧
    last (log_of (optimize (ring_settings 0 3 2)))
    = Some (sent (build_model (ring_settings 0 3 2)) next).
Proof.
  apply (first_and_last_call (ring_settings 0 3 2) 0 3 2);
    [reflexivity | reflexivity | reflexivity | lia | lia].
Defined.

(** ** The ring *)

Lemma next_rank_in_range (r ws : Z) :
  1 ≤ ws → next_rank (PInt r) (PInt ws) = inr ((r + 1) `mod` ws).
Proof. intros Hws. apply neighbours_defined. lia. Qed.

Lemma iterate_next_sum (ws : Z) (k : nat) (r : Z) :
  1 ≤ ws → 0 ≤ r < ws →
  iterate_next ws k r = inr ((r + Z.of_nat k) `mod` ws).
Proof.
  intros Hws. revert r. induction k as [|k IH]; intros r Hr.
  - simpl. by rewrite Z.add_0_r, Z.mod_small.
  - simpl. rewrite next_rank_in_range by done. simpl.
    rewrite IH by (apply Z.mod_pos_bound; lia).
    rewrite Zplus_mod_idemp_l. do 2 f_equal. lia.
Qed.

(** C4. In a ring of [world_size >= 1] processes and for every rank of the
    ring, the next neighbour of the previous neighbour is the rank itself,
    the previous neighbour of the next neighbour is the rank itself, and
    [world_size] steps to the next neighbour lead back to the rank. *)
Theorem ring_closure (ws r : Z) :
  1 ≤ ws →
  0 ≤ r < ws →
  (p ← previous_rank (PInt r) (PInt ws); next_rank (PInt p) (PInt ws)) = inr r ∧
  (n ← next_rank (PInt r) (PInt ws); previous_rank (PInt n) (PInt ws)) = inr r ∧
  iterate_next ws (Z.to_nat ws) r = inr r.
Proof.
  intros Hws Hr.
  assert (ws ≠ 0) as Hring by lia.
  destruct (neighbours_defined r ws Hring) as [-> ->]. simpl.
  destruct (neighbours_defined ((r - 1) `mod` ws) ws Hring) as [-> _].
  destruct (neighbours_defined ((r + 1) `mod` ws) ws Hring) as [_ ->].
  rewrite iterate_next_sum by done.
  rewrite Zplus_mod_idemp_l, Zminus_mod_idemp_l.
  replace (r - 1 + 1) with r by lia. replace (r + 1 - 1) with r by lia.
  rewrite Z2Nat.id by lia.
  rewrite <- (Z.mul_1_l ws) at 3. rewrite Z.mod_add by lia.
  by rewrite Z.mod_small.
Qed.

Lemma ring_closure_witness :
  (p ← previous_rank (PInt 0) (PInt 3); next_rank (PInt p) (PInt 3)) = inr 0 ∧
  (n ← next_rank (PInt 0) (PInt 3); previous_rank (PInt n) (PInt 3)) = inr 0 ∧
  iterate_next 3 (Z.to_nat 3) 0 = inr 0.
Proof. apply (ring_closure 3 0); lia. Defined.

(** C8. In a ring of [world_size >= 1] processes and for every rank of the
    ring, the neighbours the code computes are those of the formulas
    [(rank + 1) mod world_size] and [(rank - 1 + world_size) mod world_size];
    both are ranks of the ring; in a ring of one process, rank 0 is its own
    next and previous neighbour. *)
Theorem neighbours_refine_formulas (ws r : Z) :
  1 ≤ ws →
  0 ≤ r < ws →
  next_rank (PInt r) (PInt ws) = inr (spec_next r ws) ∧
  previous_rank (PInt r) (PInt ws) = inr (spec_previous r ws) ∧
  0 ≤ spec_next r ws < ws ∧
  0 ≤ spec_previous r ws < ws ∧
  next_rank (PInt 0) (PInt 1) = inr 0 ∧
  previous_rank (PInt 0) (PInt 1) = inr 0.
Proof.
  intros Hws Hr.
  assert (ws ≠ 0) as Hring by lia.
  destruct (neighbours_defined r ws Hring) as [-> ->].
  unfold spec_next, spec_previous.
  rewrite <- (Z.mul_1_l ws) at 4. rewrite Z.mod_add by lia.
  repeat split; try done; apply Z.mod_pos_bound; lia.
Qed.

Lemma neighbours_refine_formulas_witness :
  next_rank (PInt 0) (PInt 3) = inr (spec_next 0 3) ∧
  previous_rank (PInt 0) (PInt 3) = inr (spec_previous 0 3) ∧
  0 ≤ spec_next 0 3 < 3 ∧
  0 ≤ spec_previous 0 3 < 3 ∧
  next_rank (PInt 0) (PInt 1) = inr 0 ∧
  previous_rank (PInt 0) (PInt 1) = inr 0.
Proof. apply (neighbours_refine_formulas 3 0); lia. Defined.

(** ** Reading the command line *)

Lemma index_None (x : string) (l : list string) : index x l = None ↔ x ∉ l.
Proof.
  induction l as [|y l IH]; simpl.
  - split; [intros _; apply not_elem_of_nil | done].
  - rewrite not_elem_of_cons. case_decide as Hy.
    + split; [done | intros [Hne _]; by subst].
    + destruct (index x l); simpl; split; try done.
      * intros [_ Hl]. by apply IH in Hl.
      * intros _. split; [congruence | by apply IH].
Qed.

Lemma index_first_occurrence (x : string) (l : list string) (i : nat) :
  index x l = Some i →
  l !! i = Some x ∧ ∀ j : nat, (j < i)%nat → l !! j ≠ Some x.
Proof.
  revert i. induction l as [|y l IH]; intros i; simpl; [done|].
  case_decide as Hy.
  - intros [= <-]. subst. split; [done | lia].
  - destruct (index x l) as [k|]; simpl; [|done].
    intros [= <-]. destruct (IH k eq_refl) as [Hk Hbefore]. split; [done|].
    intros [|j] Hj; simpl; [congruence | apply Hbefore; lia].
Qed.

Lemma store_argument_key_eq (argv : list string) (settings : dict)
    (key store_in : string) (default : pyval) :
  store_argument_key argv settings key store_in default
  = <[store_in := argument argv key default]> settings.
Proof.
  unfold store_argument_key, argument.
  destruct (index key argv) as [i|]; [|done].
  by destruct (argv !! (i + 1)%nat).
Qed.

Section validation.
Context `{Builtins}.

Lemma validate_int (settings : dict) (key : string) (v : pyval) :
  settings !! key = Some v →
  validate_argument_key settings key type_int
  = (<[key := converted v]> settings, convertible v).
Proof.
  intros Hv. unfold validate_argument_key, converted, convertible.
  rewrite Hv. destruct (py_int v); [|done].
  by rewrite insert_id.
Qed.

Lemma validate_string (settings : dict) (key : string) (v : pyval) :
  settings !! key = Some v →
  validate_argument_key settings key type_string = (settings, true).
Proof. intros Hv. unfold validate_argument_key. by rewrite Hv. Qed.

Lemma converted_convertible (v : pyval) :
  convertible v = true → ∃ n, py_int v = inr n ∧ converted v = PInt n.
Proof.
  unfold convertible, converted. destruct (py_int v) as [|n]; [done|]. eauto.
Qed.

Lemma convertible_inr (v : pyval) (n : Z) :
  py_int v = inr n → convertible v = true ∧ converted v = PInt n.
Proof. unfold convertible, converted. by intros ->. Qed.
End validation.

Lemma parse_arguments_parsed `{Builtins} (argv : list string) :
  parse_arguments argv = parsed argv.
Proof.
  unfold parse_arguments, parsed.
  rewrite !store_argument_key_eq. cbv zeta.
  repeat first
    [ erewrite validate_int by solve_lookup
    | erewrite validate_string by solve_lookup ];
  reflexivity.
Qed.

Section parsed_entries.
Context `{Builtins} (argv : list string).

Lemma parsed_valid :
  parsed argv !! "valid"
  = Some (PBool (true && convertible (argument argv "--rank" PNone)
                   && convertible (argument argv "--world-size" PNone)
                   && convertible (argument argv "--annouce-port" (PInt 5001))
                   && convertible (argument argv "--communication-frequency" (PInt 15))
                   && true && true
                   && convertible (argument argv "--master-port" (PInt 5000))
                   && convertible (argument argv "--iterations" (PInt 1000)))).
Proof. unfold parsed. cbv zeta. solve_lookup. Qed.

Lemma parsed_rank :
  parsed argv !! "rank" = Some (converted (argument argv "--rank" PNone)).
Proof. unfold parsed. cbv zeta. solve_lookup. Qed.

Lemma parsed_world_size :
  parsed argv !! "world_size" = Some (converted (argument argv "--world-size" PNone)).
Proof. unfold parsed. cbv zeta. solve_lookup. Qed.

Lemma parsed_num_iterations :
  parsed argv !! "num_iterations"
  = Some (converted (argument argv "--iterations" (PInt 1000))).
Proof. unfold parsed. cbv zeta. solve_lookup. Qed.

Lemma parsed_master_port :
  parsed argv !! "master_port"
  = Some (converted (argument argv "--master-port" (PInt 5000))).
Proof. unfold parsed. cbv zeta. solve_lookup. Qed.

Lemma parsed_backend :
  parsed argv !! "backend" = Some (argument argv "--backend" (PStr "tcp")).
Proof. unfold parsed. cbv zeta. solve_lookup. Qed.

Lemma parsed_master :
  parsed argv !! "master" = Some (argument argv "--master" (PStr "127.0.0.1")).
Proof. unfold parsed. cbv zeta. solve_lookup. Qed.
End parsed_entries.

Lemma argument_str (argv : list string) (key default : string) :
  ∃ s, argument argv key (PStr default) = PStr s.
Proof.
  unfold argument. destruct (index key argv) as [i|]; [|eauto].
  destruct (argv !! (i + 1)%nat); simpl; eauto.
Qed.

Lemma argument_absent (argv : list string) (key : string) (default : pyval) :
  key ∉ argv → argument argv key default = default.
Proof. intros Habsent. unfold argument. by apply index_None in Habsent as ->. Qed.

Lemma argument_present (argv : list string) (key value : string) (default : pyval) (i : nat) :
  index key argv = Some i → argv !! (i + 1)%nat = Some value →
  argument argv key default = PStr value.
Proof. unfold argument. by intros -> ->. Qed.

(** ** The entry point *)

Section main.
Context `{Builtins} (argv : list string).

Lemma main_invalid :
  parse_arguments argv !! "valid" = Some (PBool false) →
  main argv = ([PrintCall options], inr ()).
Proof.
  intros Hvalid. unfold main, getitem. rewrite Hvalid. simpl from_option.
  by rewrite eval_bind.
Qed.

Lemma main_valid :
  parse_arguments argv !! "valid" = Some (PBool true) →
  ∃ (method backend : string) (rank world_size : Z),
    parse_arguments argv !! "rank" = Some (PInt rank) ∧
    parse_arguments argv !! "world_size" = Some (PInt world_size) ∧
    main argv
    = (init_process_group method (PInt rank) (PInt world_size) (PStr backend);;
       if is_master (PInt rank)
       then optimize_master (parse_arguments argv)
       else optimize (parse_arguments argv)).
Proof.
  intros Hvalid. unfold main, getitem. rewrite Hvalid. simpl from_option.
  rewrite eval_bind. simpl py_truth. cbv iota.
  revert Hvalid. rewrite parse_arguments_parsed, parsed_valid.
  intros [= Hvalid]. repeat (apply andb_prop in Hvalid as [Hvalid ?]).
  rewrite parsed_backend, parsed_master, parsed_master_port, parsed_rank,
    parsed_world_size.
  destruct (argument_str argv "--backend" "tcp") as [b ->].
  destruct (argument_str argv "--master" "127.0.0.1") as [m ->].
  destruct (converted_convertible (argument argv "--rank" PNone)) as (r & _ & ->); [done|].
  destruct (converted_convertible (argument argv "--world-size" PNone)) as (w & _ & ->); [done|].
  simpl from_option. rewrite !eval_bind.
  eexists _, b, r, w. split; [done|]. split; [done|].
  simpl str_operand.
  change (inr b ≫= _) with
    (inr (b +:+ "://" +:+ m +:+ ":" +:+
          py_str (converted (argument argv "--master-port" (PInt 5000)))) : result string).
  by rewrite eval_bind.
Qed.
End main.

(** C7. When [--rank] is not among the arguments, or the argument after it
    is not accepted by [int], the settings are marked invalid and [main]
    prints the usage message and returns: it neither initialises the process
    group nor sends or receives anything. *)
Theorem invalid_rank_prints_usage `{Builtins} (argv : list string) :
  ("--rank" ∉ argv ∨
   ∃ (i : nat) (value : string),
     index "--rank" argv = Some i ∧ argv !! (i + 1)%nat = Some value ∧
     int_of_str value = None) →
  parse_arguments argv !! "valid" = Some (PBool false) ∧
  main argv = ([PrintCall options], inr ()) ∧
  filter is_network (log_of (main argv)) = [].
Proof.
  intros Hrank.
  assert (convertible (argument argv "--rank" PNone) = false) as Hconv.
  { destruct Hrank as [Habsent | (i & value & Hi & Hvalue & Hint)].
    - by rewrite argument_absent.
    - rewrite (argument_present argv "--rank" value PNone i) by done.
      unfold convertible. simpl. by rewrite Hint. }
  assert (parse_arguments argv !! "valid" = Some (PBool false)) as Hvalid.
  { by rewrite parse_arguments_parsed, parsed_valid, Hconv. }
  split; [done|]. by rewrite main_invalid.
Qed.

Lemma invalid_rank_prints_usage_witness :
  main ["agn.py"; "--world-size"; "3"] = ([PrintCall options], inr ()) ∧
  main ["agn.py"; "--rank"; "abc"; "--world-size"; "3"] = ([PrintCall options], inr ()).
Proof.
  split.
  - apply (invalid_rank_prints_usage ["agn.py"; "--world-size"; "3"]).
    left. apply index_None. reflexivity.
  - apply (invalid_rank_prints_usage ["agn.py"; "--rank"; "abc"; "--world-size"; "3"]).
    right. exists 1%nat, "abc". repeat split; reflexivity.
Defined.

(** C6. In a run with valid settings and rank [r], [main] initialises the
    process group and then runs the master loop if [r] is 0 and the worker
    loop otherwise: [is_master] looks at the rank and at nothing else. *)
Theorem role_by_rank `{Builtins} (argv : list string) (r : Z) :
  parse_arguments argv !! "valid" = Some (PBool true) →
  parse_arguments argv !! "rank" = Some (PInt r) →
  (is_master (PInt r) = true ↔ r = 0) ∧
  ∃ (method backend : string) (world_size : Z),
    main argv
    = (init_process_group method (PInt r) (PInt world_size) (PStr backend);;
       if decide (r = 0)
       then optimize_master (parse_arguments argv)
       else optimize (parse_arguments argv)).
Proof.
  intros Hvalid Hrank. split.
  { simpl. by rewrite bool_decide_eq_true. }
  destruct (main_valid argv Hvalid) as (method & backend & r' & w & Hr' & _ & ->).
  assert (r' = r) as -> by congruence.
  exists method, backend, w. simpl is_master.
  by destruct (decide (r = 0)) as [->|Hr];
    [rewrite bool_decide_eq_true_2 | rewrite bool_decide_eq_false_2].
Qed.

Lemma role_by_rank_witness :
  (is_master (PInt 0) = true ↔ 0 = 0) ∧
  ∃ (method backend : string) (world_size : Z),
    main ["agn.py"; "--rank"; "0"; "--world-size"; "3"; "--iterations"; "2"]
    = (init_process_group method (PInt 0) (PInt world_size) (PStr backend);;
       if decide (0 = 0)
       then optimize_master
              (parse_arguments ["agn.py"; "--rank"; "0"; "--world-size"; "3"; "--iterations"; "2"])
       else optimize
              (parse_arguments ["agn.py"; "--rank"; "0"; "--world-size"; "3"; "--iterations"; "2"])).
Proof.
  apply (role_by_rank ["agn.py"; "--rank"; "0"; "--world-size"; "3"; "--iterations"; "2"] 0);
    vm_compute; reflexivity.
Defined.

Example worker_role :
  ∃ log, main ["agn.py"; "--rank"; "2"; "--world-size"; "3"; "--iterations"; "2"]
         = (log ++ log_of (optimize (ring_settings 2 3 2)), inr ()) ∧ length log = 1%nat.
Proof. eexists [_]. split; [vm_compute; reflexivity | done]. Qed.

(** ** A run of zero iterations *)

(** C10. When the other arguments are well formed and the number of
    iterations is 0, the settings are valid; the master loop makes one send
    followed by one receive and nothing in between, the worker loop makes no
    call at all, and [main] runs the loop of its role after initialising the
    process group. The master counts one send and one receive where a worker
    counts none. *)
Theorem zero_iterations_run `{Builtins} (argv : list string) (r ws ap cf mp : Z) :
  py_int (argument argv "--rank" PNone) = inr r →
  py_int (argument argv "--world-size" PNone) = inr ws →
  py_int (argument argv "--annouce-port" (PInt 5001)) = inr ap →
  py_int (argument argv "--communication-frequency" (PInt 15)) = inr cf →
  py_int (argument argv "--master-port" (PInt 5000)) = inr mp →
  py_int (argument argv "--iterations" (PInt 1000)) = inr 0 →
  ws ≠ 0 →
  parse_arguments argv !! "valid" = Some (PBool true) ∧
  parse_arguments argv !! "num_iterations" = Some (PInt 0) ∧
  ∃ (next previous : Z) (method backend : string),
    next_rank (PInt r) (PInt ws) = inr next ∧
    previous_rank (PInt r) (PInt ws) = inr previous ∧
    optimize_master (parse_arguments argv)
    = ([sent (build_model (parse_arguments argv)) next;
        received (build_model (parse_arguments argv)) previous], inr ()) ∧
    optimize (parse_arguments argv) = ([], inr ()) ∧
    main argv
    = (InitProcessGroup method (PInt r) (PInt ws) (PStr backend)
         :: (if decide (r = 0)
             then [sent (build_model (parse_arguments argv)) next;
                   received (build_model (parse_arguments argv)) previous]
             else []),
       inr ()) ∧
    sends (log_of (optimize_master (parse_arguments argv))) = 1%nat ∧
    receives (log_of (optimize_master (parse_arguments argv))) = 1%nat ∧
    sends (log_of (optimize (parse_arguments argv))) = 0%nat ∧
    receives (log_of (optimize (parse_arguments argv))) = 0%nat.
Proof.
  intros Hr Hws Hap Hcf Hmp Hn Hring.
  apply convertible_inr in Hr as [Hr1 Hr2], Hws as [Hws1 Hws2], Hap as [Hap _],
    Hcf as [Hcf _], Hmp as [Hmp _], Hn as [Hn1 Hn2].
  assert (parse_arguments argv !! "valid" = Some (PBool true)) as Hvalid.
  { by rewrite parse_arguments_parsed, parsed_valid, Hr1, Hws1, Hap, Hcf, Hmp, Hn1. }
  assert (parse_arguments argv !! "rank" = Some (PInt r)) as Hrank.
  { by rewrite parse_arguments_parsed, parsed_rank, Hr2. }
  assert (parse_arguments argv !! "world_size" = Some (PInt ws)) as Hworld.
  { by rewrite parse_arguments_parsed, parsed_world_size, Hws2. }
  assert (parse_arguments argv !! "num_iterations" = Some (PInt 0)) as Hiter.
  { by rewrite parse_arguments_parsed, parsed_num_iterations, Hn2. }
  split; [done|]. split; [done|].
  destruct (neighbours_defined r ws Hring) as [Hnext Hprevious].
  destruct (main_valid argv Hvalid) as (method & backend & r' & w & Hr' & Hw & Hmain).
  assert (r' = r) as -> by congruence. assert (w = ws) as -> by congruence.
  eexists _, _, method, backend.
  split; [exact Hnext|]. split; [exact Hprevious|].
  rewrite Hmain. unfold init_process_group. rewrite emit_bind.
  replace (is_master (PInt r)) with (bool_decide (r = 0)) by done.
  rewrite (optimize_master_run _ r ws 0), (optimize_run _ r ws 0) by done.
  repeat split; try done.
  case_bool_decide; by case_decide.
Qed.

Lemma zero_iterations_run_witness :
  parse_arguments ["agn.py"; "--rank"; "0"; "--world-size"; "2"; "--iterations"; "0"]
    !! "valid" = Some (PBool true) ∧
  main ["agn.py"; "--rank"; "0"; "--world-size"; "2"; "--iterations"; "0"]
  = ([InitProcessGroup "tcp://127.0.0.1:5000" (PInt 0) (PInt 2) (PStr "tcp");
      sent (Model_init 10000 10000) 1; received (Model_init 10000 10000) 1], inr ()) ∧
  main ["agn.py"; "--rank"; "1"; "--world-size"; "2"; "--iterations"; "0"]
  = ([InitProcessGroup "tcp://127.0.0.1:5000" (PInt 1) (PInt 2) (PStr "tcp")], inr ()).
Proof.
  split; [|split].
  - apply (zero_iterations_run
             ["agn.py"; "--rank"; "0"; "--world-size"; "2"; "--iterations"; "0"]
             0 2 5001 15 5000);
      [reflexivity | reflexivity | reflexivity | reflexivity | reflexivity
      | reflexivity | lia].
  - vm_compute. reflexivity.
  - vm_compute. reflexivity.
Defined.

(** ** Overwriting the tensors of a model *)

Lemma list_getitem_nat {A} (xs : list A) (k : nat) :
  list_getitem xs (Z.of_nat k) = from_option inr (inl IndexError) (xs !! k).
Proof.
  unfold list_getitem. cbv zeta.
  destruct (decide (Z.of_nat k < 0)) as [?|_]; [lia|].
  destruct (decide (Z.of_nat k < 0)) as [?|_]; [lia|].
  by rewrite Nat2Z.id.
Qed.

Lemma list_getitem_0 {A} (xs : list A) :
  list_getitem xs 0 = from_option inr (inl IndexError) (xs !! 0%nat).
Proof. done. Qed.

Section set_parameterization_facts.
Context `{Torch}.
Implicit Types (model parameters visited todo data : list tensor) (t : tensor).

(** The index is doubled, so it stays 0: every iteration reads
    [parameters[0]]. *)
Lemma loop_copies_first parameters t visited todo todo' :
  parameters !! 0%nat = Some t →
  Forall2 (overwritten_by t) todo todo' →
  set_parameterization_loop parameters 0 visited todo = (visited ++ todo', 0, inr ()).
Proof.
  intros Ht Hcopy. revert visited.
  induction Hcopy as [|d d' todo todo' Hd _ IH]; intros visited.
  - simpl. by rewrite app_nil_r.
  - cbn [set_parameterization_loop]. rewrite list_getitem_0, Ht.
    cbn [from_option]. rewrite Hd. change (0 + 0) with 0.
    rewrite IH. by rewrite <- (assoc_L (++)).
Qed.

Lemma loop_stops_at_mismatch parameters t visited pre pre' d post :
  parameters !! 0%nat = Some t →
  Forall2 (overwritten_by t) pre pre' →
  copy_ d t = None →
  set_parameterization_loop parameters 0 visited (pre ++ d :: post)
  = (visited ++ pre' ++ d :: post, 0, inl RuntimeError).
Proof.
  intros Ht Hcopy Hd. revert visited.
  induction Hcopy as [|x x' pre pre' Hx _ IH]; intros visited.
  - simpl app. cbn [set_parameterization_loop]. rewrite list_getitem_0, Ht.
    cbn [from_option]. by rewrite Hd.
  - simpl app. cbn [set_parameterization_loop]. rewrite list_getitem_0, Ht.
    cbn [from_option]. rewrite Hx. change (0 + 0) with 0.
    rewrite IH. by rewrite <- (assoc_L (++)).
Qed.

Lemma loop_without_parameters visited d todo :
  set_parameterization_loop [] 0 visited (d :: todo)
  = (visited ++ d :: todo, 0, inl IndexError).
Proof. done. Qed.

(** Either [t] can be copied into every tensor of [model], or there is a
    first one into which it cannot. *)
Lemma copy_cases t model :
  (∃ data, Forall2 (overwritten_by t) model data) ∨
  (∃ pre pre' d post,
     model = pre ++ d :: post ∧ Forall2 (overwritten_by t) pre pre' ∧ copy_ d t = None).
Proof.
  induction model as [|x model IH].
  - left. exists []. constructor.
  - destruct (copy_ x t) as [x'|] eqn:Hx.
    + destruct IH as [[data Hdata] | (pre & pre' & d & post & -> & Hpre & Hd)].
      * left. exists (x' :: data). by constructor.
      * right. exists (x :: pre), (x' :: pre'), d, post.
        split; [done|]. split; [by constructor | done].
    + right. exists [], [], x, model. split; [done|]. split; [constructor | done].
Qed.

Lemma loop_index_stays_0 parameters visited todo :
  (set_parameterization_loop parameters 0 visited todo).1.2 = 0.
Proof.
  destruct (parameters !! 0%nat) as [t|] eqn:Ht.
  - destruct (copy_cases t todo)
      as [[data Hdata] | (pre & pre' & d & post & -> & Hpre & Hd)].
    + by rewrite (loop_copies_first parameters t visited todo data).
    + by rewrite (loop_stops_at_mismatch parameters t visited pre pre' d post).
  - destruct parameters; [|done]. by destruct todo.
Qed.

Lemma set_parameterization_all_copied model parameters t data :
  parameters !! 0%nat = Some t →
  Forall2 (overwritten_by t) model data →
  set_parameterization model parameters = (data, inr ()).
Proof.
  intros Ht Hcopy. unfold set_parameterization.
  by rewrite (loop_copies_first parameters t [] model data).
Qed.

Lemma set_parameterization_mismatch model parameters t pre pre' d post :
  parameters !! 0%nat = Some t →
  model = pre ++ d :: post →
  Forall2 (overwritten_by t) pre pre' →
  copy_ d t = None →
  set_parameterization model parameters = (pre' ++ d :: post, inl RuntimeError).
Proof.
  intros Ht -> Hcopy Hd. unfold set_parameterization.
  by rewrite (loop_stops_at_mismatch parameters t [] pre pre' d post).
Qed.

Lemma set_parameterization_no_parameters model :
  model ≠ [] → set_parameterization model [] = (model, inl IndexError).
Proof. by destruct model. Qed.

(** The outcomes of a call. *)
Lemma set_parameterization_cases model parameters :
  (model = [] ∧ set_parameterization model parameters = ([], inr ())) ∨
  (model ≠ [] ∧ parameters = [] ∧
   set_parameterization model parameters = (model, inl IndexError)) ∨
  (∃ t data, model ≠ [] ∧ parameters !! 0%nat = Some t ∧
     Forall2 (overwritten_by t) model data ∧
     set_parameterization model parameters = (data, inr ())) ∨
  (∃ t pre pre' d post, parameters !! 0%nat = Some t ∧ model = pre ++ d :: post ∧
     Forall2 (overwritten_by t) pre pre' ∧ copy_ d t = None ∧
     set_parameterization model parameters = (pre' ++ d :: post, inl RuntimeError)).
Proof.
  destruct model as [|x model]; [by left|]. right.
  destruct parameters as [|t parameters]; [left; by rewrite set_parameterization_no_parameters|].
  right.
  destruct (copy_cases t (x :: model))
    as [[data Hdata] | (pre & pre' & d & post & Hmodel & Hpre & Hd)].
  - left. exists t, data. split; [done|]. split; [done|]. split; [done|].
    by apply (set_parameterization_all_copied _ _ t).
  - right. exists t, pre, pre', d, post. split; [done|]. split; [done|].
    split; [done|]. split; [done|].
    by apply (set_parameterization_mismatch _ _ t pre pre' d post).
Qed.
End set_parameterization_facts.

(** C9, as amended. Whatever the model and the list, the index of
    [set_parameterization] is 0 at every iteration, so that every iteration
    reads [parameters[0]] and the later elements of the list have no
    influence. With an empty list and a model of at least one parameter the
    call raises [IndexError] and leaves the model as it was. Otherwise the
    parameters are visited in order and [parameters[0]] is copied into each:
    when [copy_] accepts it for every parameter, the call returns and every
    parameter holds a copy of [parameters[0]]; when [copy_] raises at some
    parameter, the call raises there, the parameters before it hold a copy of
    [parameters[0]] and that parameter and the later ones are as they
    were. *)
Theorem set_parameterization_reads_first `{Torch} (model parameters : list tensor) :
  (∀ visited todo : list tensor,
     (set_parameterization_loop parameters 0 visited todo).1.2 = 0) ∧
  (model ≠ [] → parameters = [] →
   set_parameterization model parameters = (model, inl IndexError)) ∧
  (∀ t : tensor, parameters !! 0%nat = Some t →
     (∀ rest : list tensor,
        set_parameterization model (t :: rest) = set_parameterization model parameters) ∧
     (∀ data : list tensor,
        Forall2 (overwritten_by t) model data →
        set_parameterization model parameters = (data, inr ())) ∧
     (∀ (pre pre' : list tensor) (d : tensor) (post : list tensor),
        model = pre ++ d :: post →
        Forall2 (overwritten_by t) pre pre' →
        copy_ d t = None →
        set_parameterization model parameters = (pre' ++ d :: post, inl RuntimeError))).
Proof.
  split; [intros visited todo; apply loop_index_stays_0|].
  split; [intros Hmodel ->; by apply set_parameterization_no_parameters|].
  intros t Ht. split; [|split].
  - intros rest.
    destruct (copy_cases t model)
      as [[data Hdata] | (pre & pre' & d & post & Hmodel & Hpre & Hd)].
    + by rewrite (set_parameterization_all_copied model (t :: rest) t data),
        (set_parameterization_all_copied model parameters t data).
    + by rewrite (set_parameterization_mismatch model (t :: rest) t pre pre' d post),
        (set_parameterization_mismatch model parameters t pre pre' d post).
  - intros data Hdata. by apply (set_parameterization_all_copied _ _ t).
  - intros pre pre' d post Hmodel Hpre Hd.
    by apply (set_parameterization_mismatch _ _ t pre pre' d post).
Qed.

Lemma set_parameterization_reads_first_witness :
  ∃ data : list ndarray,
    set_parameterization [full [2; 2] 0; full [2; 2] 0] [full [2; 2] 7; full [2; 2] 8]
    = (data, inr ()) ∧
    (λ d, entry d [1; 1]) <$> data = [7; 7].
Proof.
  destruct (set_parameterization_reads_first (H := ndarray_torch)
              [full [2; 2] 0; full [2; 2] 0] [full [2; 2] 7; full [2; 2] 8])
    as (_ & _ & Hfirst).
  destruct (Hfirst (full [2; 2] 7) eq_refl) as (_ & Hcopied & _).
  eexists. split.
  - apply Hcopied. repeat constructor.
  - reflexivity.
Defined.

(** On the model of the script, whose parameters have different shapes, the
    weight of the first layer given as [parameters[0]] is copied into the
    first parameter and refused by the second, the bias of that layer: the
    call raises and the bias is as it was. *)
Lemma set_parameterization_shape_mismatch :
  (set_parameterization (script_model 0) [full [10000; 10000] 1]).2 = inl RuntimeError ∧
  (set_parameterization (script_model 0) [full [10000; 10000] 1]).2 ≠ inr () ∧
  ((λ d, entry d [0; 0]) <$> (set_parameterization (script_model 0) [full [10000; 10000] 1]).1 !! 0%nat)
  = Some 1 ∧
  ((λ d, entry d [0]) <$> (set_parameterization (script_model 0) [full [10000; 10000] 1]).1 !! 1%nat)
  = Some 0.
Proof. vm_compute. repeat split; discriminate. Qed.

Example set_parameterization_empty_list :
  (set_parameterization [full [2] 1; full [2] 2; full [2] 3] []).2 = inl IndexError.
Proof. reflexivity. Qed.

(** * Further properties *)

(** ** The settings after parsing *)

Section parsed_more_entries.
Context `{Builtins} (argv : list string).

Lemma parsed_announce_port :
  parsed argv !! "announce_port"
  = Some (converted (argument argv "--annouce-port" (PInt 5001))).
Proof. unfold parsed. cbv zeta. solve_lookup. Qed.

Lemma parsed_communication_frequency :
  parsed argv !! "communication_frequency"
  = Some (converted (argument argv "--communication-frequency" (PInt 15))).
Proof. unfold parsed. cbv zeta. solve_lookup. Qed.

(** Every option ends up under its key, validated with its type. *)
Lemma parse_arguments_entry (flag key : string) (default : pyval) (type : argtype) :
  (flag, key, default, type) ∈ option_table →
  parse_arguments argv !! key = Some (validated type (argument argv flag default)).
Proof.
  intros Hin. rewrite parse_arguments_parsed.
  unfold option_table in Hin. rewrite !elem_of_cons, elem_of_nil in Hin.
  destruct Hin as [Hin|[Hin|[Hin|[Hin|[Hin|[Hin|[Hin|[Hin|[]]]]]]]]];
    injection Hin as -> -> -> ->; simpl validated.
  - apply parsed_rank.
  - apply parsed_world_size.
  - apply parsed_announce_port.
  - apply parsed_communication_frequency.
  - apply parsed_backend.
  - apply parsed_master.
  - apply parsed_master_port.
  - apply parsed_num_iterations.
Qed.
End parsed_more_entries.

(** X1. Whatever the arguments, the settings hold exactly the eight option
    keys and [valid]: no read of [main] or of the loops can miss its key. *)
Theorem parse_arguments_keys `{Builtins} (argv : list string) :
  dom (parse_arguments argv) = settings_keys.
Proof.
  rewrite parse_arguments_parsed. unfold parsed, settings_keys. cbv zeta.
  rewrite !dom_insert_L, dom_empty_L. set_solver.
Qed.

Lemma convertible_true `{Builtins} (v : pyval) :
  convertible v = true ↔ ∃ n, py_int v = inr n.
Proof.
  unfold convertible. destruct (py_int v) as [e|n]; split; eauto; try done.
  by intros [? ?].
Qed.

Lemma validated_default `{Builtins} (flag key : string) (default : pyval) (type : argtype) :
  (flag, key, default, type) ∈ option_table → validated type default = default.
Proof.
  unfold option_table. rewrite !elem_of_cons, elem_of_nil.
  intros [Hin|[Hin|[Hin|[Hin|[Hin|[Hin|[Hin|[Hin|[]]]]]]]]];
    by injection Hin as -> -> -> ->.
Qed.

Lemma index_app_first (x : string) (pre l : list string) :
  x ∉ pre → index x (pre ++ x :: l) = Some (length pre).
Proof.
  induction pre as [|y pre IH]; simpl; intros Hpre.
  - by rewrite decide_True.
  - apply not_elem_of_cons in Hpre as [Hne Hpre].
    rewrite decide_False by done. by rewrite IH.
Qed.

Lemma argument_without_value (argv : list string) (key : string) (default : pyval) (i : nat) :
  index key argv = Some i → length argv = S i → argument argv key default = default.
Proof.
  intros Hi Hlen. unfold argument. rewrite Hi.
  by rewrite lookup_ge_None_2 by lia.
Qed.

(** X2. The flag [valid] is always a Boolean, and it is true exactly when
    each of the six options of type ['int'] holds a value that [int]
    accepts; the options of type ['string'] never count. *)
Theorem valid_iff_int_options_convert `{Builtins} (argv : list string) :
  (∃ b, parse_arguments argv !! "valid" = Some (PBool b)) ∧
  (parse_arguments argv !! "valid" = Some (PBool true) ↔
   ∀ (flag key : string) (default : pyval),
     (flag, key, default, type_int) ∈ option_table →
     ∃ n, py_int (argument argv flag default) = inr n).
Proof.
  rewrite parse_arguments_parsed, parsed_valid. split; [eauto|].
  split.
  - intros [= Hvalid]. repeat (apply andb_prop in Hvalid as [Hvalid ?]).
    intros flag key default Hin.
    unfold option_table in Hin. rewrite !elem_of_cons, elem_of_nil in Hin.
    apply convertible_true.
    destruct Hin as [Hin|[Hin|[Hin|[Hin|[Hin|[Hin|[Hin|[Hin|[]]]]]]]]];
      by injection Hin as -> -> ->.
  - intros Hall. do 2 f_equal.
    rewrite !andb_true_iff. repeat split; try done;
      apply convertible_true; eapply Hall; unfold option_table;
      rewrite !elem_of_cons; eauto 10.
Qed.

(** X3. When the settings are valid, every option of type ['int'] is stored
    as the integer [int] returns for its value, and every option of type
    ['string'] is stored as a string. *)
Theorem valid_settings_are_typed `{Builtins} (argv : list string)
    (flag key : string) (default : pyval) (type : argtype) :
  parse_arguments argv !! "valid" = Some (PBool true) →
  (flag, key, default, type) ∈ option_table →
  match type with
  | type_int =>
      ∃ n, py_int (argument argv flag default) = inr n ∧
           parse_arguments argv !! key = Some (PInt n)
  | type_string => ∃ s, parse_arguments argv !! key = Some (PStr s)
  end.
Proof.
  intros Hvalid Hin. rewrite (parse_arguments_entry argv flag key default type Hin).
  destruct type; simpl validated.
  - revert Hvalid. rewrite parse_arguments_parsed, parsed_valid.
    intros [= Hvalid]. repeat (apply andb_prop in Hvalid as [Hvalid ?]).
    assert (convertible (argument argv flag default) = true) as Hconv.
    { unfold option_table in Hin. rewrite !elem_of_cons, elem_of_nil in Hin.
      destruct Hin as [Hin|[Hin|[Hin|[Hin|[Hin|[Hin|[Hin|[Hin|[]]]]]]]]];
        by injection Hin as -> -> ->. }
    destruct (converted_convertible _ Hconv) as (n & Hn & ->). eauto.
  - unfold option_table in Hin. rewrite !elem_of_cons, elem_of_nil in Hin.
    destruct Hin as [Hin|[Hin|[Hin|[Hin|[Hin|[Hin|[Hin|[Hin|[]]]]]]]]];
      try discriminate Hin; injection Hin as -> -> ->.
    + destruct (argument_str argv "--backend" "tcp") as [s ->]. eauto.
    + destruct (argument_str argv "--master" "127.0.0.1") as [s ->]. eauto.
Qed.

Lemma valid_settings_are_typed_witness :
  ∃ n, py_int (argument ["agn.py"; "--rank"; "1"; "--world-size"; "3"]
                 "--master-port" (PInt 5000)) = inr n ∧
       parse_arguments ["agn.py"; "--rank"; "1"; "--world-size"; "3"] !! "master_port"
       = Some (PInt n).
Proof.
  apply (valid_settings_are_typed ["agn.py"; "--rank"; "1"; "--world-size"; "3"]
           "--master-port" "master_port" (PInt 5000) type_int).
  - vm_compute. reflexivity.
  - unfold option_table. repeat constructor.
Defined.

(** X4. An option whose flag does not occur, or occurs first as the last
    argument, keeps its default: [None] for the rank and the world size, the
    documented value for the others. *)
Theorem option_without_value_is_default `{Builtins} (argv : list string)
    (flag key : string) (default : pyval) (type : argtype) :
  (flag, key, default, type) ∈ option_table →
  (flag ∉ argv ∨ ∃ i : nat, index flag argv = Some i ∧ length argv = S i) →
  parse_arguments argv !! key = Some default.
Proof.
  intros Hin Hflag. rewrite (parse_arguments_entry argv flag key default type Hin).
  assert (argument argv flag default = default) as ->.
  { destruct Hflag as [Habsent | (i & Hi & Hlen)].
    - by apply argument_absent.
    - by apply (argument_without_value argv flag default i). }
  by rewrite (validated_default flag key default type).
Qed.

Lemma option_without_value_is_default_witness :
  parse_arguments ["agn.py"; "--rank"; "1"] !! "num_iterations" = Some (PInt 1000) ∧
  parse_arguments ["agn.py"; "--rank"; "1"; "--iterations"] !! "num_iterations"
  = Some (PInt 1000).
Proof.
  split.
  - apply (option_without_value_is_default ["agn.py"; "--rank"; "1"]
             "--iterations" "num_iterations" (PInt 1000) type_int).
    + unfold option_table. repeat constructor.
    + left. apply index_None. reflexivity.
  - apply (option_without_value_is_default ["agn.py"; "--rank"; "1"; "--iterations"]
             "--iterations" "num_iterations" (PInt 1000) type_int).
    + unfold option_table. repeat constructor.
    + right. exists 3%nat. split; reflexivity.
Defined.

(** X5. The value of an option is the argument that follows the first
    occurrence of its flag, whatever follows: a later occurrence of the flag
    is ignored, and the value may itself look like a flag. *)
Theorem first_occurrence_wins `{Builtins} (pre rest : list string)
    (flag key value : string) (default : pyval) (type : argtype) :
  (flag, key, default, type) ∈ option_table →
  flag ∉ pre →
  parse_arguments (pre ++ flag :: value :: rest) !! key
  = Some (validated type (PStr value)).
Proof.
  intros Hin Hpre. rewrite (parse_arguments_entry _ flag key default type Hin).
  do 2 f_equal. apply (argument_present _ flag value default (length pre)).
  - by apply index_app_first.
  - rewrite lookup_app_r by lia.
    by replace (length pre + 1 - length pre)%nat with 1%nat by lia.
Qed.

Lemma first_occurrence_wins_witness :
  parse_arguments (["agn.py"] ++ "--backend" :: "mpi" :: ["--backend"; "gloo"]) !! "backend"
  = Some (PStr "mpi").
Proof.
  apply (first_occurrence_wins ["agn.py"] ["--backend"; "gloo"]
           "--backend" "backend" "mpi" (PStr "tcp") type_string).
  - unfold option_table. repeat constructor.
  - apply index_None. reflexivity.
Defined.

(** X6. When the value of any option of type ['int'] is not accepted by
    [int], the settings are invalid and [main] only prints the usage
    message. *)
Theorem rejected_int_option_prints_usage `{Builtins} (argv : list string)
    (flag key : string) (default : pyval) (e : exn) :
  (flag, key, default, type_int) ∈ option_table →
  py_int (argument argv flag default) = inl e →
  parse_arguments argv !! "valid" = Some (PBool false) ∧
  main argv = ([PrintCall options], inr ()).
Proof.
  intros Hin He.
  assert (convertible (argument argv flag default) = false) as Hconv.
  { unfold convertible. by rewrite He. }
  assert (parse_arguments argv !! "valid" = Some (PBool false)) as Hvalid.
  { rewrite parse_arguments_parsed, parsed_valid. do 2 f_equal.
    unfold option_table in Hin. rewrite !elem_of_cons, elem_of_nil in Hin.
    destruct Hin as [Hin|[Hin|[Hin|[Hin|[Hin|[Hin|[Hin|[Hin|[]]]]]]]]];
      try discriminate Hin; injection Hin as -> -> ->; rewrite Hconv;
      rewrite ?andb_false_r; reflexivity. }
  split; [done|]. by apply main_invalid.
Qed.

Lemma rejected_int_option_prints_usage_witness :
  main ["agn.py"; "--rank"; "0"; "--world-size"; "2"; "--iterations"; "ten"]
  = ([PrintCall options], inr ()).
Proof.
  apply (rejected_int_option_prints_usage
           ["agn.py"; "--rank"; "0"; "--world-size"; "2"; "--iterations"; "ten"]
           "--iterations" "num_iterations" (PInt 1000) ValueError).
  - unfold option_table. repeat constructor.
  - reflexivity.
Defined.

(** ** Validation of one entry *)

(** X7. Validating an entry a second time changes nothing: the settings and
    the flag are those of the first validation. *)
Theorem validate_argument_key_idempotent `{Builtins} (settings : dict)
    (key : string) (type : argtype) :
  validate_argument_key (validate_argument_key settings key type).1 key type
  = validate_argument_key settings key type.
Proof.
  destruct (settings !! key) as [v|] eqn:Hv.
  - destruct type.
    + rewrite (validate_int settings key v Hv). simpl.
      rewrite (validate_int _ key (converted v)) by apply lookup_insert_eq.
      rewrite insert_insert_eq. unfold converted, convertible.
      destruct (py_int v) as [e|n] eqn:Hn; simpl; by rewrite ?Hn.
    + rewrite (validate_string settings key v Hv). simpl.
      by apply (validate_string settings key v).
  - unfold validate_argument_key. rewrite Hv. simpl. by rewrite Hv.
Qed.

(** X8. Validation keeps the set of keys and every entry other than the one
    it validates; when it fails, because the key is missing or the
    conversion raises, the settings are left exactly as they were. *)
Theorem validate_argument_key_frame `{Builtins} (settings : dict)
    (key : string) (type : argtype) :
  dom (validate_argument_key settings key type).1 = dom settings ∧
  (∀ other : string, other ≠ key →
     (validate_argument_key settings key type).1 !! other = settings !! other) ∧
  ((validate_argument_key settings key type).2 = false →
     (validate_argument_key settings key type).1 = settings) ∧
  (settings !! key = None → (validate_argument_key settings key type).2 = false).
Proof.
  unfold validate_argument_key.
  destruct (settings !! key) as [v|] eqn:Hv; [|done].
  destruct type; [|done].
  destruct (py_int v) as [e|n]; [done|]. simpl.
  split; [by apply dom_insert_lookup_L|].
  split; [intros other Hother; by apply lookup_insert_ne|]. done.
Qed.

(** ** The loops on settings that are not those of a valid run *)

Lemma getitem_Some (settings : dict) (key : string) (v : pyval) :
  settings !! key = Some v → getitem settings key = inr v.
Proof. unfold getitem. by intros ->. Qed.

Lemma getitem_None (settings : dict) (key : string) :
  settings !! key = None → getitem settings key = inl (KeyError key).
Proof. unfold getitem. by intros ->. Qed.

(** X9. A loop started on settings that lack one of the keys [rank],
    [world_size] and [num_iterations] raises [KeyError] for the first
    missing one, in this order, before any call on the network. *)
Theorem loops_missing_key (settings : dict) :
  (settings !! "rank" = None →
   optimize_master settings = ([], inl (KeyError "rank")) ∧
   optimize settings = ([], inl (KeyError "rank"))) ∧
  (is_Some (settings !! "rank") → settings !! "world_size" = None →
   optimize_master settings = ([], inl (KeyError "world_size")) ∧
   optimize settings = ([], inl (KeyError "world_size"))) ∧
  (is_Some (settings !! "rank") → is_Some (settings !! "world_size") →
   settings !! "num_iterations" = None →
   optimize_master settings = ([], inl (KeyError "num_iterations")) ∧
   optimize settings = ([], inl (KeyError "num_iterations"))).
Proof.
  unfold optimize_master, optimize. split; [|split].
  - intros Hr. by rewrite (getitem_None _ _ Hr).
  - intros [r Hr] Hw.
    by rewrite (getitem_Some _ _ _ Hr), !eval_bind, (getitem_None _ _ Hw).
  - intros [r Hr] [w Hw] Hn.
    by rewrite (getitem_Some _ _ _ Hr), !eval_bind, (getitem_Some _ _ _ Hw),
      !eval_bind, (getitem_None _ _ Hn).
Qed.

Lemma loops_missing_key_witness :
  (optimize_master ∅ = ([], inl (KeyError "rank")) ∧
   optimize ∅ = ([], inl (KeyError "rank"))) ∧
  (optimize_master (<["rank" := PInt 0]> ∅) = ([], inl (KeyError "world_size")) ∧
   optimize (<["rank" := PInt 0]> ∅) = ([], inl (KeyError "world_size"))) ∧
  (optimize_master (<["world_size" := PInt 3]> (<["rank" := PInt 0]> ∅))
   = ([], inl (KeyError "num_iterations")) ∧
   optimize (<["world_size" := PInt 3]> (<["rank" := PInt 0]> ∅))
   = ([], inl (KeyError "num_iterations"))).
Proof.
  split; [|split].
  - apply (loops_missing_key ∅). reflexivity.
  - apply (loops_missing_key (<["rank" := PInt 0]> ∅)); [by eexists | reflexivity].
  - apply (loops_missing_key (<["world_size" := PInt 3]> (<["rank" := PInt 0]> ∅)));
      [by eexists | by eexists | reflexivity].
Defined.

(** X10. With a world size of 0 both loops raise [ZeroDivisionError] when
    they compute the next neighbour, before any call on the network. *)
Theorem loops_world_size_zero (settings : dict) (r : Z) (n : pyval) :
  settings !! "rank" = Some (PInt r) →
  settings !! "world_size" = Some (PInt 0) →
  settings !! "num_iterations" = Some n →
  optimize_master settings = ([], inl ZeroDivisionError) ∧
  optimize settings = ([], inl ZeroDivisionError).
Proof.
  intros Hr Hw Hn. unfold optimize_master, optimize.
  rewrite (getitem_Some _ _ _ Hr), (getitem_Some _ _ _ Hw), (getitem_Some _ _ _ Hn).
  by rewrite !eval_bind.
Qed.

Lemma loops_world_size_zero_witness :
  optimize_master (ring_settings 0 0 5) = ([], inl ZeroDivisionError) ∧
  optimize (ring_settings 0 0 5) = ([], inl ZeroDivisionError).
Proof.
  apply (loops_world_size_zero (ring_settings 0 0 5) 0 (PInt 5)); reflexivity.
Defined.

(** X11. When [num_iterations] is [None] or a string, the master loop has
    already sent the model to its next neighbour when the [TypeError] of
    [num_iterations - 1] is raised, whereas the worker loop raises it before
    any call. *)
Theorem master_sends_before_type_error (settings : dict) (r ws : Z) (n : pyval) :
  settings !! "rank" = Some (PInt r) →
  settings !! "world_size" = Some (PInt ws) →
  settings !! "num_iterations" = Some n →
  ws ≠ 0 →
  int_operand n = inl TypeError →
  optimize_master settings
  = ([sent (build_model settings) ((r + 1) `mod` ws)], inl TypeError) ∧
  optimize settings = ([], inl TypeError).
Proof.
  intros Hr Hw Hn Hring Hop. unfold optimize_master, optimize.
  rewrite (getitem_Some _ _ _ Hr), (getitem_Some _ _ _ Hw), (getitem_Some _ _ _ Hn).
  rewrite !eval_bind.
  destruct (neighbours_defined r ws Hring) as [-> ->].
  rewrite !eval_bind, Hop. split; [|done].
  etrans; [apply emit_bind|]. done.
Qed.

Lemma master_sends_before_type_error_witness :
  optimize_master (<["num_iterations" := PStr "ten"]> (ring_settings 0 3 2))
  = ([sent (build_model (<["num_iterations" := PStr "ten"]> (ring_settings 0 3 2)))
        ((0 + 1) `mod` 3)], inl TypeError) ∧
  optimize (<["num_iterations" := PStr "ten"]> (ring_settings 0 3 2))
  = ([], inl TypeError).
Proof.
  apply (master_sends_before_type_error
           (<["num_iterations" := PStr "ten"]> (ring_settings 0 3 2)) 0 3 (PStr "ten"));
    [reflexivity | reflexivity | reflexivity | lia | reflexivity].
Defined.

(** X12. An iteration count below 1, negative ones included, is not told
    apart from 1 by the master loop, which makes one send and one receive,
    nor from 0 by the worker loop, which makes no call when the count is
    below 1. *)
Theorem loops_nonpositive_iterations (settings : dict) (r ws n : Z) :
  settings !! "rank" = Some (PInt r) →
  settings !! "world_size" = Some (PInt ws) →
  settings !! "num_iterations" = Some (PInt n) →
  ws ≠ 0 →
  (n ≤ 1 →
   optimize_master settings
   = ([sent (build_model settings) ((r + 1) `mod` ws);
       received (build_model settings) ((r - 1) `mod` ws)], inr ())) ∧
  (n ≤ 0 → optimize settings = ([], inr ())).
Proof.
  intros Hr Hw Hn Hring.
  rewrite (optimize_master_run settings r ws n), (optimize_run settings r ws n) by done.
  split; intros Hle.
  - by replace (Z.to_nat (n - 1)) with 0%nat by lia.
  - by replace (Z.to_nat n) with 0%nat by lia.
Qed.

Lemma loops_nonpositive_iterations_witness :
  optimize_master (ring_settings 0 3 (-4))
  = ([sent (build_model (ring_settings 0 3 (-4))) ((0 + 1) `mod` 3);
      received (build_model (ring_settings 0 3 (-4))) ((0 - 1) `mod` 3)], inr ()) ∧
  optimize (ring_settings 0 3 (-4)) = ([], inr ()).
Proof.
  destruct (loops_nonpositive_iterations (ring_settings 0 3 (-4)) 0 3 (-4))
    as [Hmaster Hworker]; [reflexivity | reflexivity | reflexivity | lia |].
  split; [apply Hmaster | apply Hworker]; lia.
Defined.

(** ** Whole runs of [main] *)

Lemma transfers_cycles (k : nat) (model : Model) (previous next : Z) :
  Forall is_transfer (cycles k model previous next).
Proof.
  induction k as [|k IH]; [constructor|].
  rewrite cycles_S. by repeat constructor.
Qed.

Lemma transfers_role_log (model : Model) (r ws n : Z) :
  Forall is_transfer (role_log model r ws n).
Proof.
  unfold role_log. case_decide.
  - constructor; [done|]. apply Forall_app. split; [apply transfers_cycles|].
    by repeat constructor.
  - apply transfers_cycles.
Qed.

Lemma valid_is_bool `{Builtins} (argv : list string) :
  ∃ b, parse_arguments argv !! "valid" = Some (PBool b).
Proof. rewrite parse_arguments_parsed, parsed_valid. eauto. Qed.

Lemma zero_world_raises (settings : dict) (r : Z) (n : pyval) :
  settings !! "rank" = Some (PInt r) →
  settings !! "world_size" = Some (PInt 0) →
  settings !! "num_iterations" = Some n →
  optimize_master settings = ([], inl ZeroDivisionError) ∧
  optimize settings = ([], inl ZeroDivisionError).
Proof.
  intros Hr Hw Hn. unfold optimize_master, optimize.
  rewrite (getitem_Some _ _ _ Hr), (getitem_Some _ _ _ Hw), (getitem_Some _ _ _ Hn).
  by rewrite !eval_bind.
Qed.

Section whole_run.
Context `{Builtins} (argv : list string).

Lemma role_loop_run (r ws n : Z) :
  parse_arguments argv !! "rank" = Some (PInt r) →
  parse_arguments argv !! "world_size" = Some (PInt ws) →
  parse_arguments argv !! "num_iterations" = Some (PInt n) →
  ws ≠ 0 →
  (if is_master (PInt r)
   then optimize_master (parse_arguments argv)
   else optimize (parse_arguments argv))
  = (role_log (build_model (parse_arguments argv)) r ws n, inr ()).
Proof.
  intros Hr Hw Hn Hring. unfold role_log. simpl is_master.
  rewrite (optimize_master_run _ r ws n), (optimize_run _ r ws n) by done.
  by case_bool_decide; case_decide.
Qed.

Lemma valid_num_iterations :
  parse_arguments argv !! "valid" = Some (PBool true) →
  ∃ n, parse_arguments argv !! "num_iterations" = Some (PInt n).
Proof.
  rewrite parse_arguments_parsed, parsed_valid, parsed_num_iterations.
  intros [= Hvalid]. repeat (apply andb_prop in Hvalid as [Hvalid ?]).
  destruct (converted_convertible (argument argv "--iterations" (PInt 1000)))
    as (n & _ & ->); eauto.
Qed.
End whole_run.

(** X13. Every run of [main] is of one of three kinds. With invalid
    settings it prints the usage message and returns. With valid settings
    and a world size of 0 it initialises the process group and raises
    [ZeroDivisionError]. With valid settings otherwise it initialises the
    process group, makes only calls of [send_model] and [receive_model], and
    returns. No run raises [KeyError] or [TypeError], and none both prints
    and calls the network. *)
Theorem main_outcomes `{Builtins} (argv : list string) :
  (parse_arguments argv !! "valid" = Some (PBool false) ∧
   main argv = ([PrintCall options], inr ())) ∨
  (parse_arguments argv !! "valid" = Some (PBool true) ∧
   parse_arguments argv !! "world_size" = Some (PInt 0) ∧
   ∃ init, is_init init = true ∧ main argv = ([init], inl ZeroDivisionError)) ∨
  (parse_arguments argv !! "valid" = Some (PBool true) ∧
   ∃ init calls, is_init init = true ∧ Forall is_transfer calls ∧
                 main argv = (init :: calls, inr ())).
Proof.
  destruct (valid_is_bool argv) as [[|] Hvalid].
  2:{ left. split; [done|]. by apply main_invalid. }
  right.
  destruct (main_valid argv Hvalid) as (method & backend & r & w & Hr & Hw & Hmain).
  destruct (valid_num_iterations argv Hvalid) as [n Hn].
  rewrite Hmain. unfold init_process_group. rewrite emit_bind.
  destruct (decide (w = 0)) as [->|Hring].
  - left. split; [done|]. split; [done|].
    destruct (zero_world_raises (parse_arguments argv) r (PInt n)) as [-> ->];
      try done.
    eexists. split; [|by destruct (is_master (PInt r))]. done.
  - right. split; [done|].
    rewrite (role_loop_run argv r w n) by done.
    eexists _, _. split; [|split; [|reflexivity]]; [done|].
    apply transfers_role_log.
Qed.

(** X14. A run of [main] with valid settings and a world size other than 0
    logs, in this order: the initialisation of the process group under the
    address [backend://master:port] with the rank, the world size and the
    backend of the settings, then the calls of the loop of its role. *)
Theorem main_valid_run `{Builtins} (argv : list string) (r ws n port : Z)
    (backend master : string) :
  parse_arguments argv !! "valid" = Some (PBool true) →
  parse_arguments argv !! "rank" = Some (PInt r) →
  parse_arguments argv !! "world_size" = Some (PInt ws) →
  parse_arguments argv !! "num_iterations" = Some (PInt n) →
  parse_arguments argv !! "master_port" = Some (PInt port) →
  parse_arguments argv !! "backend" = Some (PStr backend) →
  parse_arguments argv !! "master" = Some (PStr master) →
  ws ≠ 0 →
  main argv
  = (InitProcessGroup (backend +:+ "://" +:+ master +:+ ":" +:+ pretty port)
       (PInt r) (PInt ws) (PStr backend)
       :: role_log (build_model (parse_arguments argv)) r ws n,
     inr ()).
Proof.
  intros Hvalid Hr Hw Hn Hport Hbackend Hmaster Hring.
  unfold main.
  rewrite (getitem_Some _ _ _ Hvalid), (getitem_Some _ _ _ Hr), (getitem_Some _ _ _ Hw),
    (getitem_Some _ _ _ Hport), (getitem_Some _ _ _ Hbackend),
    (getitem_Some _ _ _ Hmaster).
  rewrite !eval_bind. simpl py_truth. cbv iota. rewrite ?eval_bind.
  simpl str_operand.
  change (inr backend ≫= _) with
    (inr (backend +:+ "://" +:+ master +:+ ":" +:+ pretty port) : result string).
  rewrite eval_bind. unfold init_process_group. rewrite emit_bind.
  by rewrite (role_loop_run argv r ws n).
Qed.

Lemma main_valid_run_witness :
  main ["agn.py"; "--rank"; "1"; "--world-size"; "3"; "--iterations"; "2";
        "--backend"; "gloo"; "--master"; "10.0.0.1"; "--master-port"; "29500"]
  = (InitProcessGroup ("gloo" +:+ "://" +:+ "10.0.0.1" +:+ ":" +:+ pretty 29500)
       (PInt 1) (PInt 3) (PStr "gloo")
       :: role_log
            (build_model
               (parse_arguments
                  ["agn.py"; "--rank"; "1"; "--world-size"; "3"; "--iterations"; "2";
                   "--backend"; "gloo"; "--master"; "10.0.0.1"; "--master-port"; "29500"]))
            1 3 2,
     inr ()).
Proof.
  apply (main_valid_run
           ["agn.py"; "--rank"; "1"; "--world-size"; "3"; "--iterations"; "2";
            "--backend"; "gloo"; "--master"; "10.0.0.1"; "--master-port"; "29500"]
           1 3 2 29500 "gloo" "10.0.0.1");
    [vm_compute; reflexivity | vm_compute; reflexivity | vm_compute; reflexivity
    | vm_compute; reflexivity | vm_compute; reflexivity | vm_compute; reflexivity
    | vm_compute; reflexivity | lia].
Defined.

(** ** What goes over the wire *)

Lemma elem_of_cycles (o : op) (k : nat) (model : Model) (previous next : Z) :
  o ∈ cycles k model previous next → o = received model previous ∨ o = sent model next.
Proof.
  induction k as [|k IH]; [by intros ?%elem_of_nil|].
  rewrite cycles_S, !elem_of_cons. intros [->|[->|Ho]]; auto.
Qed.

Lemma tensors_sent (ps : list parameter) (destination : Z) :
  tensor_of <$> send_parameters ps destination = ps.
Proof. induction ps as [|p ps IH]; simpl; by f_equal. Qed.

Lemma tensors_received (ps : list parameter) (source : Z) :
  tensor_of <$> receive_parameters ps source = ps.
Proof. induction ps as [|p ps IH]; simpl; by f_equal. Qed.

Lemma transfer_wire (model : Model) (o : op) (rank : Z) :
  o = sent model rank ∨ o = received model rank →
  tensor_of <$> wire_of o = parameters model ∧
  Forall (λ c, same_direction o c = true ∧ Some (peer_of c) = peer o) (wire_of o).
Proof.
  intros [-> | ->]; unfold sent, received; cbn [wire_of peer].
  - split; [apply tensors_sent|].
    unfold send_parameters. by apply Forall_fmap, Forall_true.
  - split; [apply tensors_received|].
    unfold receive_parameters. by apply Forall_fmap, Forall_true.
Qed.

(** X15. Every call of [send_model] and [receive_model] of either loop
    transfers the same six tensors in the same order, the weight and the
    bias of [fc_1], [fc_2] and [fc_3], each by a [dist] call of the
    direction of the call and to or from the peer of the call. *)
Theorem payload_identity (settings : dict) (r ws n : Z) (o : op) :
  settings !! "rank" = Some (PInt r) →
  settings !! "world_size" = Some (PInt ws) →
  settings !! "num_iterations" = Some (PInt n) →
  ws ≠ 0 →
  o ∈ log_of (optimize_master settings) ++ log_of (optimize settings) →
  tensor_of <$> wire_of o = parameters (Model_init 10000 10000) ∧
  name <$> (tensor_of <$> wire_of o)
  = ["fc_1.weight"; "fc_1.bias"; "fc_2.weight"; "fc_2.bias"; "fc_3.weight"; "fc_3.bias"] ∧
  Forall (λ c, same_direction o c = true ∧ Some (peer_of c) = peer o) (wire_of o).
Proof.
  intros Hr Hw Hn Hring.
  rewrite (optimize_master_run settings r ws n), (optimize_run settings r ws n) by done.
  unfold log_of. cbn [fst]. intros Ho.
  assert (∃ rank, o = sent (build_model settings) rank ∨
                  o = received (build_model settings) rank) as [rank Hrank].
  { rewrite elem_of_app, elem_of_cons, elem_of_app, list_elem_of_singleton in Ho.
    destruct Ho as [[->|[Ho| ->]]|Ho]; eauto;
      apply elem_of_cycles in Ho as [-> | ->]; eauto. }
  destruct (transfer_wire _ _ _ Hrank) as [Htensors Hcalls].
  split; [exact Htensors|]. split; [by rewrite Htensors|exact Hcalls].
Qed.

Lemma payload_identity_witness :
  tensor_of <$> wire_of (received (build_model (ring_settings 1 3 2)) 0)
  = parameters (Model_init 10000 10000).
Proof.
  apply (payload_identity (ring_settings 1 3 2) 1 3 2
           (received (build_model (ring_settings 1 3 2)) 0));
    [reflexivity | reflexivity | reflexivity | lia |].
  vm_compute. do 4 constructor.
Defined.

(** ** Order of the calls *)

Lemma count_ops_cons (f : op → bool) (o : op) (log : list op) :
  count_ops f (o :: log) = ((if f o then 1 else 0) + count_ops f log)%nat.
Proof.
  unfold count_ops. rewrite filter_cons.
  destruct (f o); by case_decide.
Qed.

Lemma count_ops_app (f : op → bool) (l1 l2 : list op) :
  count_ops f (l1 ++ l2) = (count_ops f l1 + count_ops f l2)%nat.
Proof. unfold count_ops. by rewrite filter_app, length_app. Qed.

Lemma count_ops_cycles (f : op → bool) (k : nat) (model : Model) (previous next : Z) :
  count_ops f (cycles k model previous next)
  = (k * ((if f (received model previous) then 1 else 0)
          + (if f (sent model next) then 1 else 0)))%nat.
Proof.
  induction k as [|k IH]; [done|].
  rewrite cycles_S, !count_ops_cons, IH. lia.
Qed.

(** Prefixes of a sequence of cycles followed by [tail]: between a receive
    and the send that follows it one more receive than sends, otherwise as
    many. *)
Lemma prefix_of_cycles (k : nat) (model : Model) (previous next : Z)
    (tail p : list op) :
  (∀ q, q `prefix_of` tail → receives q = sends q ∨ receives q = S (sends q)) →
  p `prefix_of` cycles k model previous next ++ tail →
  receives p = sends p ∨ receives p = S (sends p).
Proof.
  intros Htail. revert p. induction k as [|k IH]; intros p Hp; [by apply Htail|].
  rewrite cycles_S in Hp. simpl in Hp.
  destruct p as [|o1 p]; [by left|].
  pose proof (prefix_cons_inv_1 _ _ _ _ Hp) as ->.
  apply prefix_cons_inv_2 in Hp.
  destruct p as [|o2 p]; [by right|].
  pose proof (prefix_cons_inv_1 _ _ _ _ Hp) as ->.
  apply prefix_cons_inv_2 in Hp.
  destruct (IH p Hp) as [Heq | Heq]; [left | right];
    unfold receives, sends in *;
    rewrite !(filter_cons is_receive), !(filter_cons is_send); simpl; lia.
Qed.

(** X16. At every point of a run the worker loop has sent the model at most
    as often as it has received it and holds at most one model it has not
    passed on; the master loop has received the model at most as often as it
    has sent it and has at most one model under way. *)
Theorem causal_order (settings : dict) (r ws n : Z) (p : list op) :
  settings !! "rank" = Some (PInt r) →
  settings !! "world_size" = Some (PInt ws) →
  settings !! "num_iterations" = Some (PInt n) →
  ws ≠ 0 →
  (p `prefix_of` log_of (optimize settings) →
   (sends p ≤ receives p ≤ sends p + 1)%nat) ∧
  (p `prefix_of` log_of (optimize_master settings) →
   (receives p ≤ sends p ≤ receives p + 1)%nat).
Proof.
  intros Hr Hw Hn Hring.
  rewrite (optimize_master_run settings r ws n), (optimize_run settings r ws n) by done.
  unfold log_of. cbn [fst]. split; intros Hp.
  - rewrite <- (app_nil_r (cycles _ _ _ _)) in Hp.
    apply prefix_of_cycles in Hp; [lia|].
    intros q Hq. apply prefix_nil_inv in Hq as ->. by left.
  - destruct p as [|o p]; [unfold receives, sends; simpl; lia|].
    pose proof (prefix_cons_inv_1 _ _ _ _ Hp) as ->.
    apply prefix_cons_inv_2 in Hp.
    apply prefix_of_cycles in Hp.
    + unfold receives, sends in *.
      rewrite (filter_cons is_receive), (filter_cons is_send). simpl. lia.
    + intros q Hq. destruct q as [|o q]; [by left|].
      pose proof (prefix_cons_inv_1 _ _ _ _ Hq) as ->.
      apply prefix_cons_inv_2, prefix_nil_inv in Hq as ->. by right.
Qed.

Lemma causal_order_witness :
  (sends [received (build_model (ring_settings 1 3 2)) 0] ≤
   receives [received (build_model (ring_settings 1 3 2)) 0] ≤
   sends [received (build_model (ring_settings 1 3 2)) 0] + 1)%nat.
Proof.
  apply (causal_order (ring_settings 1 3 2) 1 3 2
           [received (build_model (ring_settings 1 3 2)) 0]);
    [reflexivity | reflexivity | reflexivity | lia |].
  vm_compute. eexists. reflexivity.
Defined.

(** ** Neighbouring processes of a ring *)

Lemma ring_process_log (ws n r : Z) :
  ws ≠ 0 →
  ring_process ws n r
  = (role_log (build_model (ring_settings r ws n)) r ws n, inr ()).
Proof.
  intros Hring. unfold ring_process, role_log. cbv zeta. simpl is_master.
  rewrite (optimize_master_run _ r ws n), (optimize_run _ r ws n) by done.
  by case_bool_decide; case_decide.
Qed.

Lemma transfers_of_role_log (f : op → bool) (model : Model) (r ws n : Z) :
  1 ≤ n →
  f (sent model ((r + 1) `mod` ws)) = true →
  f (received model ((r - 1) `mod` ws)) = false →
  count_ops f (role_log model r ws n) = Z.to_nat n.
Proof.
  intros Hn Hsent Hreceived. unfold role_log. cbv zeta. case_decide.
  - rewrite count_ops_cons, count_ops_app, count_ops_cycles, count_ops_cons.
    rewrite Hsent, Hreceived. unfold count_ops. simpl. lia.
  - rewrite count_ops_cycles, Hsent, Hreceived. lia.
Qed.

Lemma receipts_of_role_log (f : op → bool) (model : Model) (r ws n : Z) :
  1 ≤ n →
  f (sent model ((r + 1) `mod` ws)) = false →
  f (received model ((r - 1) `mod` ws)) = true →
  count_ops f (role_log model r ws n) = Z.to_nat n.
Proof.
  intros Hn Hsent Hreceived. unfold role_log. cbv zeta. case_decide.
  - rewrite count_ops_cons, count_ops_app, count_ops_cycles, count_ops_cons.
    rewrite Hsent, Hreceived. unfold count_ops. simpl. lia.
  - rewrite count_ops_cycles, Hsent, Hreceived. lia.
Qed.

(** X17. In a ring of [world_size >= 1] processes that all run
    [num_iterations = N >= 1] iterations, the process of rank [r] makes [N]
    sends, all of them to its next neighbour, and that neighbour makes [N]
    receives, all of them from [r]: every model sent is awaited, and every
    model awaited is sent. *)
Theorem ring_pairing (ws n r : Z) :
  1 ≤ ws →
  0 ≤ r < ws →
  1 ≤ n →
  sends (log_of (ring_process ws n r)) = Z.to_nat n ∧
  sends_to ((r + 1) `mod` ws) (log_of (ring_process ws n r)) = Z.to_nat n ∧
  receives (log_of (ring_process ws n ((r + 1) `mod` ws))) = Z.to_nat n ∧
  receives_from r (log_of (ring_process ws n ((r + 1) `mod` ws))) = Z.to_nat n.
Proof.
  intros Hws Hr Hn.
  rewrite !ring_process_log by lia. unfold log_of. cbn [fst].
  assert ((((r + 1) `mod` ws) - 1) `mod` ws = r) as Hback.
  { rewrite Zminus_mod_idemp_l. replace (r + 1 - 1) with r by lia.
    by apply Z.mod_small. }
  repeat split.
  - by apply (transfers_of_role_log is_send).
  - apply transfers_of_role_log; [done | | done].
    simpl. by rewrite bool_decide_eq_true_2.
  - by apply (receipts_of_role_log is_receive).
  - apply receipts_of_role_log; [done | done |].
    simpl. rewrite Hback. by rewrite bool_decide_eq_true_2.
Qed.

Lemma ring_pairing_witness :
  sends (log_of (ring_process 3 2 2)) = Z.to_nat 2 ∧
  sends_to ((2 + 1) `mod` 3) (log_of (ring_process 3 2 2)) = Z.to_nat 2 ∧
  receives (log_of (ring_process 3 2 ((2 + 1) `mod` 3))) = Z.to_nat 2 ∧
  receives_from 2 (log_of (ring_process 3 2 ((2 + 1) `mod` 3))) = Z.to_nat 2.
Proof. apply (ring_pairing 3 2 2); lia. Defined.

(** X18. In a ring of at least two processes that all run with an iteration
    count below 1, the master sends the model once to rank 1, which never
    receives, and waits once for the model from the last rank, which never
    sends. *)
Theorem ring_unpaired_without_iterations (ws n : Z) :
  2 ≤ ws →
  n ≤ 0 →
  sends_to 1 (log_of (ring_process ws n 0)) = 1%nat ∧
  receives (log_of (ring_process ws n 1)) = 0%nat ∧
  receives_from (ws - 1) (log_of (ring_process ws n 0)) = 1%nat ∧
  sends (log_of (ring_process ws n (ws - 1))) = 0%nat.
Proof.
  intros Hws Hn.
  rewrite !ring_process_log by lia. unfold log_of, role_log. cbn [fst]. cbv zeta.
  rewrite decide_True by done.
  rewrite !decide_False by lia.
  replace (Z.to_nat (n - 1)) with 0%nat by lia.
  replace (Z.to_nat n) with 0%nat by lia.
  replace ((0 + 1) `mod` ws) with 1 by (symmetry; apply Z.mod_small; lia).
  replace ((0 - 1) `mod` ws) with (ws - 1).
  2:{ rewrite <- (Z.mod_add (0 - 1) 1 ws) by lia.
      replace (0 - 1 + 1 * ws) with (ws - 1) by lia.
      symmetry. apply Z.mod_small. lia. }
  unfold sends_to, receives_from, count_ops, receives, sends. simpl.
  rewrite !filter_cons. simpl.
  rewrite !bool_decide_eq_true_2 by done. done.
Qed.

Lemma ring_unpaired_without_iterations_witness :
  sends_to 1 (log_of (ring_process 3 0 0)) = 1%nat ∧
  receives (log_of (ring_process 3 0 1)) = 0%nat ∧
  receives_from (3 - 1) (log_of (ring_process 3 0 0)) = 1%nat ∧
  sends (log_of (ring_process 3 0 (3 - 1))) = 0%nat.
Proof. apply (ring_unpaired_without_iterations 3 0); lia. Defined.

(** X19. For a positive world size the neighbours of any integer rank, in
    the ring or not, are ranks of the ring, and they depend on the rank only
    up to a multiple of the world size: a rank outside of the ring takes the
    place of a rank of the ring. *)
Theorem neighbours_of_any_rank (ws r k : Z) :
  1 ≤ ws →
  ∃ next previous : Z,
    next_rank (PInt r) (PInt ws) = inr next ∧
    previous_rank (PInt r) (PInt ws) = inr previous ∧
    0 ≤ next < ws ∧ 0 ≤ previous < ws ∧
    next_rank (PInt (r + k * ws)) (PInt ws) = inr next ∧
    previous_rank (PInt (r + k * ws)) (PInt ws) = inr previous.
Proof.
  intros Hws. assert (ws ≠ 0) as Hring by lia.
  destruct (neighbours_defined r ws Hring) as [-> ->].
  destruct (neighbours_defined (r + k * ws) ws Hring) as [-> ->].
  eexists _, _. repeat split; try (apply Z.mod_pos_bound; lia).
  - f_equal. replace (r + k * ws + 1) with (r + 1 + k * ws) by lia.
    by apply Z.mod_add.
  - f_equal. replace (r + k * ws - 1) with (r - 1 + k * ws) by lia.
    by apply Z.mod_add.
Qed.

Lemma neighbours_of_any_rank_witness :
  ∃ next previous : Z,
    next_rank (PInt 7) (PInt 3) = inr next ∧
    previous_rank (PInt 7) (PInt 3) = inr previous ∧
    0 ≤ next < 3 ∧ 0 ≤ previous < 3 ∧
    next_rank (PInt (7 + (-2) * 3)) (PInt 3) = inr next ∧
    previous_rank (PInt (7 + (-2) * 3)) (PInt 3) = inr previous.
Proof. apply (neighbours_of_any_rank 3 7 (-2)). lia. Defined.

(** ** More on [set_parameterization] *)

Lemma overwritten_length `{Torch} (t : tensor) (l l' : list tensor) :
  Forall2 (overwritten_by t) l l' → length l' = length l.
Proof. intros Hl. symmetry. by eapply Forall2_length. Qed.

Lemma overwritten_all `{Torch} (t : tensor) (l l' : list tensor) :
  Forall2 (overwritten_by t) l l' → ∀ d, d ∈ l → is_Some (copy_ d t).
Proof.
  induction 1 as [|x x' l l' Hx _ IH]; intros d Hd.
  - by apply elem_of_nil in Hd.
  - apply elem_of_cons in Hd as [-> | Hd]; [by exists x' | by apply IH].
Qed.

(** X20. [set_parameterization] never changes the number of tensors of the
    model, and it ends in one of three ways. It raises [IndexError] exactly
    when the model has a parameter and the list is empty, and then the model
    is as it was. With a list that is not empty it returns exactly when
    [copy_] accepts [parameters[0]] for every parameter of the model, and it
    raises [RuntimeError] exactly when [copy_] refuses it for some
    parameter. *)
Theorem set_parameterization_outcome `{Torch} (model parameters : list tensor) :
  length (set_parameterization model parameters).1 = length model ∧
  ((set_parameterization model parameters).2 = inl IndexError ↔
   model ≠ [] ∧ parameters = []) ∧
  ((set_parameterization model parameters).2 = inl IndexError →
   (set_parameterization model parameters).1 = model) ∧
  (∀ t : tensor, parameters !! 0%nat = Some t →
     ((set_parameterization model parameters).2 = inr () ↔
      ∀ d, d ∈ model → is_Some (copy_ d t)) ∧
     ((set_parameterization model parameters).2 = inl RuntimeError ↔
      ∃ d, d ∈ model ∧ copy_ d t = None)).
Proof.
  destruct (set_parameterization_cases model parameters)
    as [[-> ->] | [(Hmodel & -> & ->) | [(t & data & Hmodel & Ht & Hdata & ->)
       | (t & pre & pre' & d & post & Ht & -> & Hpre & Hd & ->)]]]; cbn [fst snd].
  - split; [done|]. split; [split; [done | by intros [? _]]|]. split; [done|].
    intros t Ht. split; split; try done.
    + by intros _ d ?%elem_of_nil.
    + by intros (d & ?%elem_of_nil & _).
  - split; [done|]. split; [done|]. split; [done|]. by intros t Ht.
  - split; [by apply (overwritten_length t)|].
    split; [split; [done | intros [_ ->]; done]|]. split; [done|].
    intros t' Ht'. assert (t' = t) as -> by congruence.
    split; split; try done.
    + intros _. by apply (overwritten_all t model data).
    + intros (d & Hin & Hd). by destruct (overwritten_all t model data Hdata d Hin); congruence.
  - split.
    { rewrite !length_app. simpl. by rewrite (overwritten_length t pre pre'). }
    split; [split; [done | intros [_ ->]; done]|]. split; [done|].
    intros t' Ht'. assert (t' = t) as -> by congruence.
    split; split; try done.
    + intros Hall. destruct (Hall d) as [d' Hd']; [|congruence].
      apply elem_of_app. right. by left.
    + intros _. exists d. split; [|done]. apply elem_of_app. right. by left.
Qed.

Lemma loops_agree `{Torch} (parameters todo visited : list tensor) (j : nat) :
  (∀ k : nat, (j ≤ k < j + length todo)%nat → parameters !! k = parameters !! 0%nat) →
  ((set_parameterization_loop parameters 0 visited todo).1.1,
   (set_parameterization_loop parameters 0 visited todo).2)
  = ((documented_loop parameters (Z.of_nat j) visited todo).1.1,
     (documented_loop parameters (Z.of_nat j) visited todo).2).
Proof.
  revert visited j. induction todo as [|p todo IH]; intros visited j Hsame; [done|].
  cbn [set_parameterization_loop documented_loop].
  rewrite list_getitem_0, list_getitem_nat.
  rewrite (Hsame j) by (simpl; lia).
  destruct (parameters !! 0%nat) as [t|]; cbn [from_option]; [|done].
  destruct (copy_ p t) as [p'|]; [|done].
  change (0 + 0) with 0. replace (Z.of_nat j + 1) with (Z.of_nat (S j)) by lia.
  apply IH. intros k Hk. apply Hsame. simpl. lia.
Qed.

(** X21. [set_parameterization] does what its docstring says, that is what
    the same loop does with the index advanced by one, whenever the elements
    of the list that the documented loop would read are all the first one;
    this is the case of every model of one parameter, whatever the list. *)
Theorem set_parameterization_agrees_with_docstring `{Torch}
    (model parameters : list tensor) :
  (∀ k : nat, (k < length model)%nat → parameters !! k = parameters !! 0%nat) →
  set_parameterization model parameters
  = set_parameterization_documented model parameters.
Proof.
  intros Hsame.
  pose proof (loops_agree parameters model [] 0) as Hagree.
  unfold set_parameterization, set_parameterization_documented.
  change (Z.of_nat 0) with 0 in Hagree.
  destruct (set_parameterization_loop parameters 0 [] model) as [[d1 i1] r1].
  destruct (documented_loop parameters 0 [] model) as [[d2 i2] r2].
  apply Hagree. intros k Hk. apply Hsame. lia.
Qed.

Lemma set_parameterization_agrees_with_docstring_witness :
  set_parameterization [full [2] 0] [full [2] 7; full [2] 8]
  = set_parameterization_documented [full [2] 0] [full [2] 7; full [2] 8].
Proof.
  apply (set_parameterization_agrees_with_docstring (H := ndarray_torch)).
  intros [|k] Hk; [reflexivity | simpl in Hk; lia].
Defined.

(** With two parameters and two different tensors the two loops differ: the
    second parameter receives the first tensor instead of the second. *)
Example set_parameterization_misses_docstring :
  (λ d, entry d [0]) <$> (set_parameterization [full [2] 0; full [2] 0]
                            [full [2] 7; full [2] 8]).1 = [7; 7] ∧
  (λ d, entry d [0]) <$> (set_parameterization_documented [full [2] 0; full [2] 0]
                            [full [2] 7; full [2] 8]).1 = [7; 8].
Proof. split; reflexivity. Qed.

Lemma overwritten_again `{Torch} (t : tensor) (l l' : list tensor) :
  (∀ d d', copy_ d t = Some d' → copy_ d' t = Some d') →
  Forall2 (overwritten_by t) l l' → Forall2 (overwritten_by t) l' l'.
Proof.
  intros Hlaw. induction 1 as [|x x' l l' Hx _ IH]; constructor; [|done].
  by apply (Hlaw x).
Qed.

(** X22. When a tensor that has received a copy accepts the same copy again
    and is not changed by it, as is the case of torch's [copy_], calling
    [set_parameterization] a second time with the same list changes nothing:
    the model and the outcome are those of the first call, also when the
    first call raised after it had overwritten some parameters. *)
Theorem set_parameterization_idempotent `{Torch} (model parameters : list tensor) :
  (∀ d t d' : tensor, copy_ d t = Some d' → copy_ d' t = Some d') →
  set_parameterization (set_parameterization model parameters).1 parameters
  = set_parameterization model parameters.
Proof.
  intros Hlaw.
  destruct (set_parameterization_cases model parameters)
    as [[-> ->] | [(Hmodel & -> & ->) | [(t & data & Hmodel & Ht & Hdata & ->)
       | (t & pre & pre' & d & post & Ht & -> & Hpre & Hd & ->)]]]; cbn [fst].
  - done.
  - by apply set_parameterization_no_parameters.
  - apply (set_parameterization_all_copied _ _ t); [done|].
    eapply overwritten_again; [intros ??; apply Hlaw | done].
  - apply (set_parameterization_mismatch _ _ t pre' pre' d post); [done | done | | done].
    eapply overwritten_again; [intros ??; apply Hlaw | done].
Qed.

Lemma ndarray_copy_again (d t d' : ndarray) :
  ndarray_copy d t = Some d' → ndarray_copy d' t = Some d'.
Proof.
  unfold ndarray_copy.
  destruct (expandable (dims t) (dims d)) eqn:Hfits; [|done].
  intros [= <-]. simpl. by rewrite Hfits.
Qed.

Lemma set_parameterization_idempotent_witness :
  set_parameterization
    (set_parameterization (script_model 0) [full [10000; 10000] 1]).1
    [full [10000; 10000] 1]
  = set_parameterization (script_model 0) [full [10000; 10000] 1].
Proof.
  apply (set_parameterization_idempotent (H := ndarray_torch)).
  exact ndarray_copy_again.
Defined.

(** ** Storing one option *)

(** X23. [store_argument_key] writes the entry [store_in], replacing what
    was there, and no other entry; what it writes is the default or a string
    taken from the arguments, never a number. *)
Theorem store_argument_key_frame (argv : list string) (settings : dict)
    (key store_in : string) (default : pyval) :
  (∃ v, store_argument_key argv settings key store_in default !! store_in = Some v ∧
        (v = default ∨ ∃ s, v = PStr s ∧ s ∈ argv)) ∧
  (∀ other : string, other ≠ store_in →
     store_argument_key argv settings key store_in default !! other = settings !! other).
Proof.
  rewrite store_argument_key_eq. split.
  - exists (argument argv key default). split; [apply lookup_insert_eq|].
    unfold argument. destruct (index key argv) as [i|]; [|by left].
    destruct (argv !! (i + 1)%nat) as [s|] eqn:Hs; simpl; [|by left].
    right. exists s. split; [done|]. by eapply list_elem_of_lookup_2.
  - intros other Hother. by apply lookup_insert_ne.
Qed.

(** ** Rings of one process and negative world sizes *)

(** X24. With a world size of 1 every call of either loop, whatever the
    rank, talks to rank 0: the process of rank 0 sends the model to itself
    and receives it from itself. *)
Theorem single_process_ring (settings : dict) (r n : Z) :
  settings !! "rank" = Some (PInt r) →
  settings !! "world_size" = Some (PInt 1) →
  settings !! "num_iterations" = Some (PInt n) →
  Forall (λ o, peer o = Some 0)
    (log_of (optimize_master settings) ++ log_of (optimize settings)).
Proof.
  intros Hr Hw Hn.
  rewrite (optimize_master_run settings r 1 n), (optimize_run settings r 1 n) by done.
  unfold log_of. cbn [fst]. rewrite !Z.mod_1_r.
  apply Forall_forall. intros o Ho.
  rewrite elem_of_app, elem_of_cons, elem_of_app, list_elem_of_singleton in Ho.
  destruct Ho as [[->|[Ho| ->]]|Ho]; try done;
    by apply elem_of_cycles in Ho as [-> | ->].
Qed.

Lemma single_process_ring_witness :
  Forall (λ o, peer o = Some 0)
    (log_of (optimize_master (ring_settings 0 1 3)) ++ log_of (optimize (ring_settings 0 1 3))).
Proof.
  apply (single_process_ring (ring_settings 0 1 3) 0 3); reflexivity.
Defined.

(** X25. A negative world size is not rejected by the neighbour
    computation: the neighbours of any rank are then ranks that are negative
    or 0, above the world size. *)
Theorem neighbours_negative_world_size (ws r : Z) :
  ws < 0 →
  ∃ next previous : Z,
    next_rank (PInt r) (PInt ws) = inr next ∧
    previous_rank (PInt r) (PInt ws) = inr previous ∧
    ws < next ≤ 0 ∧ ws < previous ≤ 0.
Proof.
  intros Hws. assert (ws ≠ 0) as Hring by lia.
  destruct (neighbours_defined r ws Hring) as [-> ->].
  eexists _, _. repeat split; try apply Z.mod_neg_bound; lia.
Qed.

Lemma neighbours_negative_world_size_witness :
  ∃ next previous : Z,
    next_rank (PInt 0) (PInt (-3)) = inr next ∧
    previous_rank (PInt 0) (PInt (-3)) = inr previous ∧
    -3 < next ≤ 0 ∧ -3 < previous ≤ 0.
Proof. apply (neighbours_negative_world_size (-3) 0). lia. Defined.

(** ** Number of calls of [dist] *)

Lemma dist_calls_app (l1 l2 : list op) :
  dist_calls (l1 ++ l2) = dist_calls l1 ++ dist_calls l2.
Proof. unfold dist_calls. by rewrite fmap_app, join_app. Qed.

Lemma dist_sends_of_sent (model : Model) (rank : Z) :
  length (filter is_dist_send (wire_of (sent model rank))) = length (parameters model) ∧
  length (filter is_dist_recv (wire_of (sent model rank))) = 0%nat.
Proof.
  unfold sent. cbn [wire_of]. unfold send_parameters.
  induction (parameters model) as [|p ps [IH1 IH2]]; [done|].
  rewrite fmap_cons, !filter_cons. simpl. by rewrite IH1, IH2.
Qed.

Lemma dist_recvs_of_received (model : Model) (rank : Z) :
  length (filter is_dist_recv (wire_of (received model rank))) = length (parameters model) ∧
  length (filter is_dist_send (wire_of (received model rank))) = 0%nat.
Proof.
  unfold received. cbn [wire_of]. unfold receive_parameters.
  induction (parameters model) as [|p ps [IH1 IH2]]; [done|].
  rewrite fmap_cons, !filter_cons. simpl. by rewrite IH1, IH2.
Qed.

Lemma dist_calls_of_cycles (k : nat) (model : Model) (previous next : Z) :
  length (filter is_dist_send (dist_calls (cycles k model previous next)))
  = (k * length (parameters model))%nat ∧
  length (filter is_dist_recv (dist_calls (cycles k model previous next)))
  = (k * length (parameters model))%nat.
Proof.
  induction k as [|k [IH1 IH2]]; [done|].
  rewrite cycles_S.
  change (dist_calls (received model previous :: sent model next :: ?l))
    with (wire_of (received model previous) ++ wire_of (sent model next) ++ dist_calls l).
  rewrite !filter_app, !length_app, IH1, IH2.
  destruct (dist_sends_of_sent model next) as [-> ->].
  destruct (dist_recvs_of_received model previous) as [-> ->]. lia.
Qed.

(** X26. With [num_iterations = N >= 1] each loop makes [6 * N] calls of
    [dist.send] and [6 * N] calls of [dist.recv]: one per tensor of the
    model for each call of [send_model] and of [receive_model]. *)
Theorem dist_calls_per_run (settings : dict) (r ws n : Z) :
  settings !! "rank" = Some (PInt r) →
  settings !! "world_size" = Some (PInt ws) →
  settings !! "num_iterations" = Some (PInt n) →
  ws ≠ 0 →
  1 ≤ n →
  Z.of_nat (length (filter is_dist_send (dist_calls (log_of (optimize_master settings))))) = 6 * n ∧
  Z.of_nat (length (filter is_dist_recv (dist_calls (log_of (optimize_master settings))))) = 6 * n ∧
  Z.of_nat (length (filter is_dist_send (dist_calls (log_of (optimize settings))))) = 6 * n ∧
  Z.of_nat (length (filter is_dist_recv (dist_calls (log_of (optimize settings))))) = 6 * n.
Proof.
  intros Hr Hw Hn Hring Hpos.
  rewrite (optimize_master_run settings r ws n), (optimize_run settings r ws n) by done.
  unfold log_of. cbn [fst].
  change (dist_calls (sent ?m ?x :: ?l)) with (wire_of (sent m x) ++ dist_calls l).
  rewrite dist_calls_app.
  change (dist_calls [received ?m ?x]) with (wire_of (received m x) ++ []).
  rewrite !filter_app, !length_app.
  destruct (dist_calls_of_cycles (Z.to_nat (n - 1)) (build_model settings)
              ((r - 1) `mod` ws) ((r + 1) `mod` ws)) as [-> ->].
  destruct (dist_calls_of_cycles (Z.to_nat n) (build_model settings)
              ((r - 1) `mod` ws) ((r + 1) `mod` ws)) as [-> ->].
  destruct (dist_sends_of_sent (build_model settings) ((r + 1) `mod` ws)) as [-> ->].
  destruct (dist_recvs_of_received (build_model settings) ((r - 1) `mod` ws)) as [-> ->].
  change (length (parameters (build_model settings))) with 6%nat.
  simpl length. lia.
Qed.

Lemma dist_calls_per_run_witness :
  Z.of_nat (length (filter is_dist_send
                      (dist_calls (log_of (optimize_master (ring_settings 0 3 2)))))) = 6 * 2.
Proof.
  apply (dist_calls_per_run (ring_settings 0 3 2) 0 3 2);
    [reflexivity | reflexivity | reflexivity | lia | lia].
Defined.
